(** * route-finder: the route simplification heuristic and the selection
      state machine of [src/App.tsx]

    The development embeds the parts of [App.tsx] that carry the program's own
    logic: the per-step road-name extraction and significance filter of
    [handleSubmit], the distance formatting, the tap-driven selection state
    ([handleMapClick], [resetSelection]), the completion of the directions
    request, and the two start-up effects (geolocation and map creation).

    JavaScript values are modelled as the code uses them: strings are
    sequences of code units (here the code units U+0000..U+00FF, one [ascii]
    each), numbers are IEEE 754 binary64 values ([float]), [null] references
    are [option]s, and arrays are lists. *)

From Stdlib Require Import ZArith List Bool Ascii String Lia Floats DecimalString.
Import ListNotations.

Set Warnings "-inexact-float".

Local Open Scope string_scope.
Local Open Scope bool_scope.

(* ================================================================== *)
(** ** The ECMAScript string operations used by the program *)
(* ================================================================== *)

Module JSString.

Definition code (c : ascii) : N := N_of_ascii c.

(** Upper-case letters among U+0000..U+00FF: A-Z, and U+00C0..U+00DE
    without the multiplication sign U+00D7. *)
Definition isUpperCase (c : ascii) : bool :=
  let n := code c in
  ((65 <=? n) && (n <=? 90))%N
  || ((192 <=? n) && (n <=? 222) && negb (n =? 215))%N.

(** Lower-case letters whose upper-case form is again below U+0100: a-z,
    and U+00E0..U+00FE without the division sign U+00F7. *)
Definition hasUpperCase (c : ascii) : bool :=
  let n := code c in
  ((97 <=? n) && (n <=? 122))%N
  || ((224 <=? n) && (n <=? 254) && negb (n =? 247))%N.

Definition toLowerCaseChar (c : ascii) : ascii :=
  if isUpperCase c then ascii_of_N (code c + 32) else c.

(** [String.prototype.toLowerCase]. *)
Fixpoint toLowerCase (s : string) : string :=
  match s with
  | EmptyString => EmptyString
  | String c s' => String (toLowerCaseChar c) (toLowerCase s')
  end.

(** [String.prototype.includes]: [kw] occurs in [s] at some index. *)
Fixpoint includes (s kw : string) : bool :=
  if prefix kw s then true
  else match s with
       | EmptyString => false
       | String _ s' => includes s' kw
       end.

(** White space and line terminators, the characters of [\s] and the ones
    [trim] strips: TAB, LF, VT, FF, CR, SPACE, NBSP. *)
Definition whiteSpaceSet : list ascii :=
  map ascii_of_N [9; 10; 11; 12; 13; 32; 160]%N.

Definition isWhiteSpace (c : ascii) : bool :=
  existsb (Ascii.eqb c) whiteSpaceSet.

(** Line terminators: LF and CR. *)
Definition isLineTerminator (c : ascii) : bool :=
  let n := code c in (n =? 10)%N || (n =? 13)%N.

Fixpoint trimStart (s : string) : string :=
  match s with
  | EmptyString => EmptyString
  | String c s' => if isWhiteSpace c then trimStart s' else s
  end.

Fixpoint trimEnd (s : string) : string :=
  match s with
  | EmptyString => EmptyString
  | String c s' =>
      match trimEnd s' with
      | EmptyString => if isWhiteSpace c then EmptyString else String c EmptyString
      | t => String c t
      end
  end.

(** [String.prototype.trim]. *)
Definition trim (s : string) : string := trimEnd (trimStart s).

End JSString.

(* ================================================================== *)
(** ** Regular expressions: the backtracking matcher of ECMAScript *)
(* ================================================================== *)

Module JSRegExp.
Import JSString.

(** The pattern syntax the program's one regular expression uses. *)
Inductive regex : Type :=
| Empty                            (* the empty pattern *)
| Lit (c : ascii)                  (* a pattern character *)
| Dot                              (* [.] *)
| WhiteSpaceClass                  (* [\s] *)
| NotOneOf (cs : list ascii)       (* [[^...]] *)
| EndAnchor                        (* [$] *)
| Seq (r1 r2 : regex)              (* r1 r2 *)
| Alt (r1 r2 : regex)              (* r1|r2 *)
| Plus (greedy : bool) (r : regex) (* r+ and r+? *)
| Group (r : regex).               (* the capturing group ( r ) *)

(** The pattern made of the characters of [s] in sequence. *)
Fixpoint lits (s : string) : regex :=
  match s with
  | EmptyString => Empty
  | String c s' => Seq (Lit c) (lits s')
  end.

(** [Canonicalize] under the [i] flag: the upper-case form of a code unit.
    The two letters whose upper-case form lies above U+00FF (U+00B5 and
    U+00FF) and U+00DF stand for themselves; no other code unit of the range
    shares their canonical form. *)
Definition canonicalize (ignoreCase : bool) (c : ascii) : ascii :=
  if ignoreCase && hasUpperCase c then ascii_of_N (code c - 32) else c.

Definition charEq (ignoreCase : bool) (a ch : ascii) : bool :=
  Ascii.eqb (canonicalize ignoreCase a) (canonicalize ignoreCase ch).

(** Membership of [ch] in a character set, both sides canonicalized. *)
Definition inSet (ignoreCase : bool) (cs : list ascii) (ch : ascii) : bool :=
  existsb (fun a => charEq ignoreCase a ch) cs.

(** A match state: the input not yet consumed and the text captured by
    the group so far. *)
Definition state : Type := string * option string.
Definition continuation : Type := string -> option string -> option state.

(** One-character matchers consume the head of the input when it is in
    the character set. *)
Definition oneChar (p : ascii -> bool) (k : continuation)
           (rest : string) (cap : option string) : option state :=
  match rest with
  | EmptyString => None
  | String ch rest' => if p ch then k rest' cap else None
  end.

(** The iterations of [r+] (greedy) and [r+?] (lazy) over the matcher [m]
    of [r]: after one match of [r] a greedy repetition tries one more
    iteration before the continuation, a lazy one tries the continuation
    first. [fuel] bounds the number of iterations. *)
Fixpoint iterate (m : continuation -> string -> option string -> option state)
         (greedy : bool) (k : continuation) (fuel : nat)
         (rest : string) (cap : option string) {struct fuel} : option state :=
  match fuel with
  | O => None
  | S fuel' =>
      m (fun rest' cap' =>
           if greedy then
             match iterate m greedy k fuel' rest' cap' with
             | Some y => Some y
             | None => k rest' cap'
             end
           else
             match k rest' cap' with
             | Some y => Some y
             | None => iterate m greedy k fuel' rest' cap'
             end)
        rest cap
  end.

(** The matcher of a pattern, in continuation-passing style: a pattern
    consumes a prefix of the input and hands the rest to its continuation;
    alternatives are tried left to right, and a failure of the continuation
    backtracks into the pattern. A repetition gets one iteration more than
    there are characters left, every iteration of the patterns used here
    consuming one. *)
Fixpoint matcher (ignoreCase : bool) (r : regex) (k : continuation)
         (rest : string) (cap : option string) {struct r} : option state :=
  match r with
  | Empty => k rest cap
  | Lit c => oneChar (charEq ignoreCase c) k rest cap
  | Dot => oneChar (fun ch => negb (isLineTerminator ch)) k rest cap
  | WhiteSpaceClass => oneChar (inSet ignoreCase whiteSpaceSet) k rest cap
  | NotOneOf cs => oneChar (fun ch => negb (inSet ignoreCase cs ch)) k rest cap
  | EndAnchor =>
      match rest with
      | EmptyString => k rest cap
      | String _ _ => None
      end
  | Seq r1 r2 => matcher ignoreCase r1 (matcher ignoreCase r2 k) rest cap
  | Alt r1 r2 =>
      match matcher ignoreCase r1 k rest cap with
      | Some y => Some y
      | None => matcher ignoreCase r2 k rest cap
      end
  | Plus greedy r1 =>
      iterate (matcher ignoreCase r1) greedy k (S (String.length rest)) rest cap
  | Group r1 =>
      matcher ignoreCase r1
        (fun rest' _ =>
           k rest'
             (Some (substring 0 (String.length rest - String.length rest') rest)))
        rest cap
  end.

(** The result of a successful match: the matched text and the text of
    capturing group 1 ([undefined] when the group took no part). *)
Record MatchResult : Type := { matched : string; group1 : option string }.

(** The element at index 1 of the match array, for a pattern whose group
    takes part in every match (as [roadPattern_group_defined] shows of the
    program's pattern), so that the element is a string. *)
Definition groupText (r : MatchResult) : string :=
  match group1 r with
  | Some g => g
  | None => EmptyString
  end.

(** The final continuation: the match is complete. *)
Definition accept : continuation := fun rest cap => Some (rest, cap).

(** [String.prototype.match] with a non-global pattern: the first start
    index, from the left, at which the matcher succeeds. *)
Fixpoint exec (ignoreCase : bool) (r : regex) (s : string) : option MatchResult :=
  match matcher ignoreCase r accept s None with
  | Some (rest, cap) =>
      Some {| matched := substring 0 (String.length s - String.length rest) s;
              group1 := cap |}
  | None =>
      match s with
      | EmptyString => None
      | String _ s' => exec ignoreCase r s'
      end
  end.

End JSRegExp.

(* ================================================================== *)
(** ** Numbers: [Number.prototype.toFixed] on binary64 values *)
(* ================================================================== *)

Module JSNumber.

Local Open Scope Z_scope.

(** The integer [n] for which [n / 10^f - x] is as close to zero as
    possible, the larger one when there are two, for [x = m * 2^e > 0]. *)
Definition nearestScaled (m : positive) (e : Z) (f : nat) : Z :=
  let scaled := Z.pos m * 10 ^ Z.of_nat f in
  if 0 <=? e then scaled * 2 ^ e
  else (2 * scaled + 2 ^ (- e)) / (2 * 2 ^ (- e)).

Fixpoint zeros (n : nat) : string :=
  match n with
  | O => EmptyString
  | S n' => String "0" (zeros n')
  end.

(** The decimal digits of [n >= 0], padded on the left to more than [f]
    digits, with a point before the last [f] of them. *)
Definition fixedDigits (n : Z) (f : nat) : string :=
  let m := NilZero.string_of_uint (N.to_uint (Z.to_N n)) in
  let m := if (String.length m <=? f)%nat
           then zeros (f + 1 - String.length m) ++ m else m in
  let k := String.length m in
  if (f =? 0)%nat then m
  else substring 0 (k - f) m ++ "." ++ substring (k - f) f m.

Section ToFixed.

(** [Number::toString] on the finite values of magnitude at least
    10^21, which [toFixed] prints as [toString] does (in exponent
    notation, with the shortest digits the engine chooses). *)
Variable toStringLarge : float -> string.

(** [x.toFixed(f)] for [0 <= f <= 100]. *)
Definition toFixed (x : float) (f : nat) : string :=
  match Prim2SF x with
  | S754_nan => "NaN"
  | S754_infinity false => "Infinity"
  | S754_infinity true => "-Infinity"
  | S754_zero _ => fixedDigits 0 f
  | S754_finite s m e =>
      (if s then "-" else "") ++
      (if (1e21 <=? abs x)%float then toStringLarge (abs x)
       else fixedDigits (nearestScaled m e f) f)
  end.

End ToFixed.

End JSNumber.

Import JSString JSRegExp JSNumber.

(* ================================================================== *)
(** ** The data of [App.tsx] *)
(* ================================================================== *)

(** [interface DirectionStep]. *)
Module DirectionStep.
Record t : Type := { step : nat; instruction : string; distance : string }.
End DirectionStep.

(** [interface MapboxStep]; [instruction] is [maneuver.instruction]. *)
Module MapboxStep.
Record t : Type := { instruction : string; distance : float }.
End MapboxStep.

(** A leg of a route: its steps, and the [distance] the directions service
    sends with every leg (read by [handleSubmit] as [route.legs[0].distance]). *)
Module Leg.
Record t : Type := { steps : list MapboxStep.t; distance : float }.
End Leg.

(** [interface MapboxRoute]; [coordinates] is [geometry.coordinates]. *)
Module MapboxRoute.
Record t : Type := { legs : list Leg.t; coordinates : list (float * float) }.
End MapboxRoute.

(** [interface MapboxDirectionsResponse]; [routes] is [None] when the body
    has no such member. *)
Module MapboxDirectionsResponse.
Record t : Type := { routes : option (list MapboxRoute.t) }.
End MapboxDirectionsResponse.

(** A tapped or located position, [{ lat; lng }]. *)
Record Coords : Type := { lat : float; lng : float }.

(** The values of [currentStep]: ['start'], ['end'] and ['complete']. *)
Inductive SelectionStep : Type := StepStart | StepEnd | StepComplete.

(** The map object as far as the program changes it: the ['route'] source
    and layer, present with the drawn coordinates or absent. *)
Record MapObject : Type := { routeSource : option (list (float * float)) }.

(** The state and refs of the [App] component. A marker ref holds the
    position its marker was created at. *)
Record AppState : Type := {
  startLocation : string;
  endLocation : string;
  directions : option (list DirectionStep.t);
  userCoords : option Coords;
  isLoading : bool;
  loadingLocation : bool;
  currentStep : SelectionStep;
  mapRef : option MapObject;
  startMarkerRef : option Coords;
  endMarkerRef : option Coords
}.

(** What the component does to the world outside its state. *)
Inductive Effect : Type :=
| PreventDefault
| Fetch (origin destination : Coords)
| ConsoleError
| ConsoleLog (message : string)
| Alert (message : string).

(** How the directions request ends: [fetch] rejects, or it resolves to a
    response with its [ok] flag and a body that [json()] parses or rejects. *)
Inductive ResponseBody : Type :=
| InvalidJson
| Json (data : MapboxDirectionsResponse.t).

Inductive FetchOutcome : Type :=
| NetworkFailure
| Response (ok : bool) (body : ResponseBody).

(** How the position request of the geolocation effect ends. *)
Inductive GeolocationOutcome : Type :=
| GeolocationUnsupported
| PositionFound (position : Coords)
| PositionError.

(** The state setters. *)
Definition setStartLocation (v : string) (s : AppState) : AppState :=
  {| startLocation := v; endLocation := endLocation s;
     directions := directions s; userCoords := userCoords s;
     isLoading := isLoading s; loadingLocation := loadingLocation s;
     currentStep := currentStep s; mapRef := mapRef s;
     startMarkerRef := startMarkerRef s; endMarkerRef := endMarkerRef s |}.

Definition setEndLocation (v : string) (s : AppState) : AppState :=
  {| startLocation := startLocation s; endLocation := v;
     directions := directions s; userCoords := userCoords s;
     isLoading := isLoading s; loadingLocation := loadingLocation s;
     currentStep := currentStep s; mapRef := mapRef s;
     startMarkerRef := startMarkerRef s; endMarkerRef := endMarkerRef s |}.

Definition setDirections (v : option (list DirectionStep.t)) (s : AppState) : AppState :=
  {| startLocation := startLocation s; endLocation := endLocation s;
     directions := v; userCoords := userCoords s;
     isLoading := isLoading s; loadingLocation := loadingLocation s;
     currentStep := currentStep s; mapRef := mapRef s;
     startMarkerRef := startMarkerRef s; endMarkerRef := endMarkerRef s |}.

Definition setUserCoords (v : option Coords) (s : AppState) : AppState :=
  {| startLocation := startLocation s; endLocation := endLocation s;
     directions := directions s; userCoords := v;
     isLoading := isLoading s; loadingLocation := loadingLocation s;
     currentStep := currentStep s; mapRef := mapRef s;
     startMarkerRef := startMarkerRef s; endMarkerRef := endMarkerRef s |}.

Definition setIsLoading (v : bool) (s : AppState) : AppState :=
  {| startLocation := startLocation s; endLocation := endLocation s;
     directions := directions s; userCoords := userCoords s;
     isLoading := v; loadingLocation := loadingLocation s;
     currentStep := currentStep s; mapRef := mapRef s;
     startMarkerRef := startMarkerRef s; endMarkerRef := endMarkerRef s |}.

Definition setLoadingLocation (v : bool) (s : AppState) : AppState :=
  {| startLocation := startLocation s; endLocation := endLocation s;
     directions := directions s; userCoords := userCoords s;
     isLoading := isLoading s; loadingLocation := v;
     currentStep := currentStep s; mapRef := mapRef s;
     startMarkerRef := startMarkerRef s; endMarkerRef := endMarkerRef s |}.

Definition setCurrentStep (v : SelectionStep) (s : AppState) : AppState :=
  {| startLocation := startLocation s; endLocation := endLocation s;
     directions := directions s; userCoords := userCoords s;
     isLoading := isLoading s; loadingLocation := loadingLocation s;
     currentStep := v; mapRef := mapRef s;
     startMarkerRef := startMarkerRef s; endMarkerRef := endMarkerRef s |}.

(** Assignments to the [current] member of the refs. *)
Definition setMapRef (v : option MapObject) (s : AppState) : AppState :=
  {| startLocation := startLocation s; endLocation := endLocation s;
     directions := directions s; userCoords := userCoords s;
     isLoading := isLoading s; loadingLocation := loadingLocation s;
     currentStep := currentStep s; mapRef := v;
     startMarkerRef := startMarkerRef s; endMarkerRef := endMarkerRef s |}.

Definition setStartMarkerRef (v : option Coords) (s : AppState) : AppState :=
  {| startLocation := startLocation s; endLocation := endLocation s;
     directions := directions s; userCoords := userCoords s;
     isLoading := isLoading s; loadingLocation := loadingLocation s;
     currentStep := currentStep s; mapRef := mapRef s;
     startMarkerRef := v; endMarkerRef := endMarkerRef s |}.

Definition setEndMarkerRef (v : option Coords) (s : AppState) : AppState :=
  {| startLocation := startLocation s; endLocation := endLocation s;
     directions := directions s; userCoords := userCoords s;
     isLoading := isLoading s; loadingLocation := loadingLocation s;
     currentStep := currentStep s; mapRef := mapRef s;
     startMarkerRef := startMarkerRef s; endMarkerRef := v |}.

(** The state of a freshly mounted component (the [useState] and [useRef]
    initial values). *)
Definition initialState : AppState :=
  {| startLocation := ""; endLocation := "";
     directions := None; userCoords := None;
     isLoading := false; loadingLocation := true;
     currentStep := StepStart; mapRef := None;
     startMarkerRef := None; endMarkerRef := None |}.

(* ================================================================== *)
(** ** The instruction simplification of [handleSubmit] *)
(* ================================================================== *)

(** The pattern [/(?:on|onto|along)\s+([^,.]+?)(?:\s|$|,|.)/i]. *)
Definition roadPattern : regex :=
  Seq (Alt (lits "on") (Alt (lits "onto") (lits "along")))
      (Seq (Plus true WhiteSpaceClass)
           (Seq (Group (Plus false (NotOneOf [","%char; "."%char])))
                (Alt WhiteSpaceClass (Alt EndAnchor (Alt (Lit ",") Dot))))).

(** [instruction.match(...)] on the lower-cased instruction. *)
Definition roadMatch (instruction : string) : option MatchResult :=
  exec true roadPattern instruction.

(** Patterns without a capturing group. *)
Fixpoint groupFree (r : regex) : bool :=
  match r with
  | Empty | Lit _ | Dot | WhiteSpaceClass | NotOneOf _ | EndAnchor => true
  | Seq r1 r2 | Alt r1 r2 => groupFree r1 && groupFree r2
  | Plus _ r1 => groupFree r1
  | Group _ => false
  end.

(** A pattern without a group hands the captured text it was given on to
    its continuation, and a match of the whole is a match of the
    continuation. *)
Definition passesOn (m : continuation -> string -> option string -> option state) : Prop :=
  forall k rest cap y,
    m k rest cap = Some y -> exists rest', k rest' cap = Some y.

(** A text made of white space only. *)
Fixpoint allWhiteSpace (s : string) : bool :=
  match s with
  | EmptyString => true
  | String c s' => isWhiteSpace c && allWhiteSpace s'
  end.

(** The prepositions of the pattern. *)
Definition prepositions : list string := ["on"; "onto"; "along"].

(** A text occurs in [s] in some letter case when a piece of [s]
    lower-cases to it. *)
Definition occursAnyCase (kw s : string) : Prop :=
  exists pre w post, s = pre ++ w ++ post /\ toLowerCase w = kw.

(** The [isSignificant] test on the lower-cased instruction and the step's
    distance. *)
Definition isSignificant (instruction : string) (distance : float) : bool :=
  includes instruction "highway" ||
  includes instruction "freeway" ||
  includes instruction "interstate" ||
  includes instruction "i-" ||
  includes instruction "route" ||
  includes instruction "us-" ||
  includes instruction "sr-" ||
  (1000 <? distance)%float.

(** The keywords of [isSignificant]. *)
Definition keywords : list string :=
  ["highway"; "freeway"; "interstate"; "i-"; "route"; "us-"; "sr-"].

(** The condition [roadMatch && isSignificant] of a step. *)
Definition included (step : MapboxStep.t) : bool :=
  let instruction := toLowerCase (MapboxStep.instruction step) in
  match roadMatch instruction with
  | Some _ => isSignificant instruction (MapboxStep.distance step)
  | None => false
  end.

Section App.

(** The engine's [Number::toString] on large values (see [toFixed]). *)
Variable toStringLarge : float -> string.

(** The template [`${(d * 0.000621371).toFixed(1)} mi`]. *)
Definition miles (d : float) : string :=
  toFixed toStringLarge (d * 0.000621371)%float 1 ++ " mi".

(** The body of the [forEach] over the steps, on the array built so far
    and the counter. *)
Definition forEachBody (acc : list DirectionStep.t * nat) (step : MapboxStep.t)
  : list DirectionStep.t * nat :=
  let '(simplifiedSteps, stepCounter) := acc in
  let instruction := toLowerCase (MapboxStep.instruction step) in
  match roadMatch instruction with
  | Some m =>
      if isSignificant instruction (MapboxStep.distance step) then
        let roadName := trim (groupText m) in
        ((simplifiedSteps ++
            [{| DirectionStep.step := stepCounter;
                DirectionStep.instruction := roadName;
                DirectionStep.distance := miles (MapboxStep.distance step) |}])%list,
         S stepCounter)
      else acc
  | None => acc
  end.

Definition directRoute (leg : Leg.t) : DirectionStep.t :=
  {| DirectionStep.step := 1;
     DirectionStep.instruction := "Direct route";
     DirectionStep.distance := miles (Leg.distance leg) |}.

(** The simplified steps [handleSubmit] computes from the first leg. *)
Definition simplifySteps (leg : Leg.t) : list DirectionStep.t :=
  let simplifiedSteps := fst (fold_left forEachBody (Leg.steps leg) ([], 1)) in
  if (List.length simplifiedSteps =? 0)%nat
  then (simplifiedSteps ++ [directRoute leg])%list
  else simplifiedSteps.

(** The entry pushed for an included step when the counter is [k]. *)
Definition entryOf (k : nat) (step : MapboxStep.t) : DirectionStep.t :=
  {| DirectionStep.step := k;
     DirectionStep.instruction :=
       trim (match roadMatch (toLowerCase (MapboxStep.instruction step)) with
             | Some m => groupText m
             | None => EmptyString
             end);
     DirectionStep.distance := miles (MapboxStep.distance step) |}.

(** The entries the loop pushes over [steps] when it starts with the
    counter at [k]: the loop in closed form ([forEach_entriesFrom]). *)
Fixpoint entriesFrom (k : nat) (steps : list MapboxStep.t) : list DirectionStep.t :=
  match steps with
  | [] => []
  | step :: steps' =>
      if included step
      then entryOf k step :: entriesFrom (S k) steps'
      else entriesFrom k steps'
  end.

(* ================================================================ *)
(** ** The handlers of the component *)
(* ================================================================ *)

(** The text [`${coords.lat.toFixed(6)}, ${coords.lng.toFixed(6)}`]. *)
Definition coordsText (coords : Coords) : string :=
  toFixed toStringLarge (lat coords) 6 ++ ", " ++
  toFixed toStringLarge (lng coords) 6.

Definition handleMapClick (coords : Coords) (s : AppState) : AppState :=
  match mapRef s with
  | None => s
  | Some _ =>
      match currentStep s with
      | StepStart =>
          setCurrentStep StepEnd
            (setStartLocation (coordsText coords)
               (setStartMarkerRef (Some coords) s))
      | StepEnd =>
          setCurrentStep StepComplete
            (setEndLocation (coordsText coords)
               (setEndMarkerRef (Some coords) s))
      | StepComplete => setCurrentStep StepComplete s
      end
  end.

Definition drawRoute (coordinates : list (float * float)) (s : AppState) : AppState :=
  match mapRef s with
  | None => s
  | Some _ => setMapRef (Some {| routeSource := Some coordinates |}) s
  end.

Definition resetSelection (s : AppState) : AppState :=
  let s := setCurrentStep StepStart s in
  let s := setStartLocation "" s in
  let s := setEndLocation "" s in
  let s := setDirections None s in
  let s := setStartMarkerRef None s in
  let s := setEndMarkerRef None s in
  match mapRef s with
  | Some {| routeSource := Some _ |} => setMapRef (Some {| routeSource := None |}) s
  | _ => s
  end.

(** The guard of [handleSubmit]: the positions of the two markers when
    both texts are non-empty and both markers exist. *)
Definition submitGuard (s : AppState) : option (Coords * Coords) :=
  match startMarkerRef s, endMarkerRef s with
  | Some origin, Some destination =>
      if (startLocation s =? "")%string || (endLocation s =? "")%string
      then None
      else Some (origin, destination)
  | _, _ => None
  end.

(** [handleSubmit] up to its [await]: the guard, the loading flag, and
    the request for the two markers' positions. *)
Definition handleSubmitStart (s : AppState) : AppState * list Effect :=
  match submitGuard s with
  | None => (s, [PreventDefault])
  | Some (origin, destination) =>
      (setIsLoading true s, [PreventDefault; Fetch origin destination])
  end.

(** The [catch] block. *)
Definition catchError (s : AppState) : AppState * list Effect :=
  (setIsLoading false s,
   [ConsoleError; Alert "Failed to calculate route. Please try again."]).

(** The use of the parsed body, [None] when it throws ([route.legs[0]] is
    [undefined] for a route without legs). *)
Definition useResponse (data : MapboxDirectionsResponse.t) (s : AppState)
  : option AppState :=
  match MapboxDirectionsResponse.routes data with
  | Some (route :: _) =>
      match MapboxRoute.legs route with
      | leg :: _ =>
          Some (drawRoute (MapboxRoute.coordinates route)
                  (setDirections (Some (simplifySteps leg)) s))
      | [] => None
      end
  | Some [] | None => Some s
  end.

(** [handleSubmit] from the completion of the request on, in the state
    the component is in at that moment. *)
Definition handleSubmitResume (outcome : FetchOutcome) (s : AppState)
  : AppState * list Effect :=
  match outcome with
  | NetworkFailure => catchError s
  | Response false _ => catchError s
  | Response true InvalidJson => catchError s
  | Response true (Json data) =>
      match useResponse data s with
      | Some s' => (setIsLoading false s', [])
      | None => catchError s
      end
  end.

(** A whole run of [handleSubmit] with no other event in between. *)
Definition handleSubmit (outcome : FetchOutcome) (s : AppState)
  : AppState * list Effect :=
  let '(s1, effects1) := handleSubmitStart s in
  match submitGuard s with
  | None => (s1, effects1)
  | Some _ =>
      let '(s2, effects2) := handleSubmitResume outcome s1 in
      (s2, (effects1 ++ effects2)%list)
  end.

(** The [disabled] attribute of the submit button. *)
Definition submitDisabled (s : AppState) : bool :=
  isLoading s ||
  match currentStep s with StepComplete => false | _ => true end.

(** A submission of the form through its submit button: a disabled
    button submits nothing, an enabled one runs [handleSubmit]. *)
Definition submitForm (s : AppState) : AppState * list Effect :=
  if submitDisabled s then (s, []) else handleSubmitStart s.

(** The geolocation effect, run once after mounting. *)
Definition geolocationEffect (outcome : GeolocationOutcome) (s : AppState)
  : AppState * list Effect :=
  match outcome with
  | GeolocationUnsupported =>
      (s, [ConsoleLog "Geolocation is not supported by your browser"])
  | PositionFound position =>
      (setLoadingLocation false (setUserCoords (Some position) s),
       [ConsoleLog "User location obtained:"])
  | PositionError =>
      (setLoadingLocation false s,
       [ConsoleLog "User location obtained:";
        ConsoleLog "Unable to retrieve your location"])
  end.

(** The map container is rendered in place of the spinner when
    [loadingLocation] is false, and [mapContainerRef] is set with it. *)
Definition mapContainerRef (s : AppState) : bool := negb (loadingLocation s).

(** The map effect, run when [loadingLocation] changes: it creates the map
    (and registers the press handlers) under its four conditions. *)
Definition mapEffect (s : AppState) : AppState * list Effect :=
  let log := [ConsoleLog "userCoords changed:"] in
  match userCoords s with
  | Some _ =>
      if mapContainerRef s
         && match mapRef s with None => true | Some _ => false end
         && negb (loadingLocation s)
      then (setMapRef (Some {| routeSource := None |}) s, log)
      else (s, log)
  | None => (s, log)
  end.

(** The events the component reacts to, and its reaction to each. *)
Inductive Event : Type :=
| Tap (coords : Coords)
| Reset
| SubmitForm
| FetchDone (outcome : FetchOutcome)
| Geolocation (outcome : GeolocationOutcome)
| MapEffect.

Definition react (ev : Event) (s : AppState) : AppState * list Effect :=
  match ev with
  | Tap coords => (handleMapClick coords s, [])
  | Reset => (resetSelection s, [])
  | SubmitForm => submitForm s
  | FetchDone outcome => handleSubmitResume outcome s
  | Geolocation outcome => geolocationEffect outcome s
  | MapEffect => mapEffect s
  end.

End App.

(** An engine's rendering of large values for the concrete runs below. None
    of them reaches 10^21, so they come out the same under every rendering. *)
Definition sampleToStringLarge : float -> string := fun _ => "1e+21".

(** The position of a selection step in the order start, end, complete. *)
Definition stepRank (step : SelectionStep) : nat :=
  match step with
  | StepStart => 0
  | StepEnd => 1
  | StepComplete => 2
  end.

(** The request failed: no response, or a response whose status is not a
    success. *)
Definition requestFailed (outcome : FetchOutcome) : Prop :=
  match outcome with
  | NetworkFailure => True
  | Response ok _ => ok = false
  end.

(** The body has no [routes] member or an empty one. *)
Definition noRoutes (data : MapboxDirectionsResponse.t) : Prop :=
  match MapboxDirectionsResponse.routes data with
  | None | Some [] => True
  | Some (_ :: _) => False
  end.

Definition isFetch (effect : Effect) : bool :=
  match effect with
  | Fetch _ _ => true
  | _ => false
  end.

Definition isAlert (effect : Effect) : bool :=
  match effect with
  | Alert _ => true
  | _ => false
  end.

(** The component together with the number of directions requests issued
    and not yet completed. *)
Record World : Type := { component : AppState; inFlight : nat }.

(** The delivery of an event: a request can complete only when one is in
    flight, and every [Fetch] among the effects of a reaction is a request
    more in flight. *)
Definition deliver (toStringLarge : float -> string) (ev : Event) (w : World)
  : option World :=
  let result := react toStringLarge ev (component w) in
  let issued := List.length (filter isFetch (snd result)) in
  match ev, inFlight w with
  | FetchDone _, O => None
  | FetchDone _, S n => Some {| component := fst result; inFlight := n + issued |}
  | _, n => Some {| component := fst result; inFlight := n + issued |}
  end.

Fixpoint run (toStringLarge : float -> string) (events : list Event) (w : World)
  : option World :=
  match events with
  | [] => Some w
  | ev :: events' =>
      match deliver toStringLarge ev w with
      | Some w' => run toStringLarge events' w'
      | None => None
      end
  end.

Definition mounted : World := {| component := initialState; inFlight := 0 |}.

(** No request is in flight, or one is and the loading flag is set. *)
Definition oneAtATime (w : World) : Prop :=
  inFlight w = 0 \/ (inFlight w = 1 /\ isLoading (component w) = true).

(** Sample inputs. *)
Definition mainStreet : MapboxStep.t :=
  {| MapboxStep.instruction := "Turn right onto Main Street";
     MapboxStep.distance := 2000 |}.

Definition towardHighway : MapboxStep.t :=
  {| MapboxStep.instruction := "Merge left toward Highway 101";
     MapboxStep.distance := 5000 |}.

Definition ontoHighway : MapboxStep.t :=
  {| MapboxStep.instruction := "Turn left onto HIGHWAY 101";
     MapboxStep.distance := 300 |}.

Definition elmStreet : MapboxStep.t :=
  {| MapboxStep.instruction := "Turn left onto Elm St";
     MapboxStep.distance := 100 |}.

Definition oneMile : MapboxStep.t :=
  {| MapboxStep.instruction := "Continue on I-5 North";
     MapboxStep.distance := 1609 |}.

Definition london : Coords := {| lat := 51.5074; lng := -0.1278 |}.
Definition paris : Coords := {| lat := 48.8566; lng := 2.3522 |}.

(** The component with its map created, before any tap. *)
Definition mapReady : AppState :=
  setMapRef (Some {| routeSource := None |})
    (setLoadingLocation false (setUserCoords (Some london) initialState)).

(** The component after two taps and a submission. *)
Definition requesting : World :=
  {| component :=
       setIsLoading true
         (handleMapClick sampleToStringLarge paris
            (handleMapClick sampleToStringLarge london mapReady));
     inFlight := 1 |}.

(* ================================================================== *)
(** ** The press-and-hold gesture of the map effect *)
(* ================================================================== *)

(** A pending timeout of the page: the time it is due at, and the position
    its callback was created with ([e.lngLat] of the press). *)
Record Timer : Type := { due : nat; target : Coords }.

(** The page once the map effect has created the map: the two variables of
    the effect ([pressTimer], [feedbackMarker]), the browser's clock in
    milliseconds, the identifier [setTimeout] returns next, its pending
    timeouts, and the component. *)
Record MapPage : Type := {
  pressTimer : option nat;
  feedbackMarker : option Coords;
  clock : nat;
  nextTimer : nat;
  timers : list (nat * Timer);
  appState : AppState
}.

(** [clearTimeout(id)]. *)
Definition clearTimeout (id : nat) (pending : list (nat * Timer)) : list (nat * Timer) :=
  filter (fun entry => negb (fst entry =? id)%nat) pending.

(** The [cleanup] closure: a timer identifier that is [null] or 0 is falsy
    and left alone. *)
Definition cleanup (p : MapPage) : MapPage :=
  let p1 :=
    match pressTimer p with
    | Some (S _ as id) =>
        {| pressTimer := None; feedbackMarker := feedbackMarker p;
           clock := clock p; nextTimer := nextTimer p;
           timers := clearTimeout id (timers p); appState := appState p |}
    | Some O | None => p
    end in
  match feedbackMarker p1 with
  | Some _ =>
      {| pressTimer := pressTimer p1; feedbackMarker := None;
         clock := clock p1; nextTimer := nextTimer p1;
         timers := timers p1; appState := appState p1 |}
  | None => p1
  end.

(** The [mousedown] and [touchstart] handlers: clean up, show the feedback
    marker at the pressed position, and start the 500 ms timer. *)
Definition pressStart (lngLat : Coords) (p : MapPage) : MapPage :=
  let p1 := cleanup p in
  {| pressTimer := Some (nextTimer p1); feedbackMarker := Some lngLat;
     clock := clock p1; nextTimer := S (nextTimer p1);
     timers := (timers p1 ++
                  [(nextTimer p1, {| due := clock p1 + 500; target := lngLat |})])%list;
     appState := appState p1 |}.

Fixpoint findTimer (id : nat) (pending : list (nat * Timer)) : option Timer :=
  match pending with
  | [] => None
  | (i, t) :: pending' => if (i =? id)%nat then Some t else findTimer id pending'
  end.

(** What happens on the page: the presses, the four events that cancel one,
    the passing of time, and the browser running a timeout that is due. *)
Inductive PageEvent : Type :=
| MouseDown (lngLat : Coords)
| MouseUp
| DragStart
| TouchStart (lngLat : Coords)
| TouchEnd
| TouchMove
| Elapse (ms : nat)
| TimerFires (id : nat).

Definition isCancel (ev : PageEvent) : bool :=
  match ev with
  | MouseUp | DragStart | TouchEnd | TouchMove => true
  | _ => false
  end.

Section Gesture.

Variable toStringLarge : float -> string.

(** The callback of the press timer: [handleMapClick] at the pressed
    position, then [cleanup]. The browser has taken the timeout off its
    pending ones before it runs the callback. *)
Definition timerCallback (id : nat) (t : Timer) (p : MapPage) : MapPage :=
  cleanup
    {| pressTimer := pressTimer p; feedbackMarker := feedbackMarker p;
       clock := clock p; nextTimer := nextTimer p;
       timers := clearTimeout id (timers p);
       appState := handleMapClick toStringLarge (target t) (appState p) |}.

(** One event on the page; [None] when the event cannot happen (a timeout
    runs only if it is pending and due). *)
Definition pageStep (ev : PageEvent) (p : MapPage) : option MapPage :=
  match ev with
  | MouseDown lngLat | TouchStart lngLat => Some (pressStart lngLat p)
  | MouseUp | DragStart | TouchEnd | TouchMove => Some (cleanup p)
  | Elapse ms =>
      Some {| pressTimer := pressTimer p; feedbackMarker := feedbackMarker p;
              clock := clock p + ms; nextTimer := nextTimer p;
              timers := timers p; appState := appState p |}
  | TimerFires id =>
      match findTimer id (timers p) with
      | Some t => if (due t <=? clock p)%nat then Some (timerCallback id t p) else None
      | None => None
      end
  end.

Fixpoint runPage (events : list PageEvent) (p : MapPage) : option MapPage :=
  match events with
  | [] => Some p
  | ev :: events' =>
      match pageStep ev p with
      | Some p' => runPage events' p'
      | None => None
      end
  end.

End Gesture.

(** The page right after the map effect has run on the component [s];
    timer identifiers are greater than zero. *)
Definition newPage (s : AppState) : MapPage :=
  {| pressTimer := None; feedbackMarker := None; clock := 0; nextTimer := 1;
     timers := []; appState := s |}.

(** No press is pending and nothing is left of one; or one press is
    pending, with its marker shown and its timeout the only one. *)
Definition pressCoherent (p : MapPage) : Prop :=
  1 <= nextTimer p
  /\ match pressTimer p with
     | None => timers p = [] /\ feedbackMarker p = None
     | Some id =>
         1 <= id < nextTimer p
         /\ exists t, timers p = [(id, t)] /\ feedbackMarker p = Some (target t)
     end.

(* ================================================================== *)
(** ** The deep links, the panels, and [reqRigList] *)
(* ================================================================== *)

(** [window.open(url, target)]. *)
Inductive WindowEffect : Type :=
| WindowOpen (url target : string).

Section Links.

(** [Number::toString], as a template literal prints a number. *)
Variable numberToString : float -> string.

Definition openInGoogleMaps (s : AppState) : list WindowEffect :=
  match startMarkerRef s, endMarkerRef s with
  | Some startLngLat, Some endLngLat =>
      [WindowOpen
         ("https://www.google.com/maps/dir/?api=1&origin="
            ++ numberToString (lat startLngLat) ++ ","
            ++ numberToString (lng startLngLat)
            ++ "&destination="
            ++ numberToString (lat endLngLat) ++ ","
            ++ numberToString (lng endLngLat)
            ++ "&travelmode=driving")
         "_blank"]
  | _, _ => []
  end.

Definition openInAppleMaps (s : AppState) : list WindowEffect :=
  match startMarkerRef s, endMarkerRef s with
  | Some startLngLat, Some endLngLat =>
      [WindowOpen
         ("http://maps.apple.com/?saddr="
            ++ numberToString (lat startLngLat) ++ ","
            ++ numberToString (lng startLngLat)
            ++ "&daddr="
            ++ numberToString (lat endLngLat) ++ ","
            ++ numberToString (lng endLngLat)
            ++ "&dirflg=d")
         "_blank"]
  | _, _ => []
  end.

End Links.

(** The three alternatives of the directions section, each rendered under
    its own condition, and the condition of the share buttons. *)
Inductive Panel : Type := EmptyPanel | LoadingPanel | ListPanel.

Definition hasDirections (s : AppState) : bool :=
  match directions s with
  | Some _ => true
  | None => false
  end.

Definition renderedPanels (s : AppState) : list Panel :=
  ((if negb (hasDirections s) && negb (isLoading s) then [EmptyPanel] else [])
   ++ (if isLoading s then [LoadingPanel] else [])
   ++ (if hasDirections s && negb (isLoading s) then [ListPanel] else []))%list.

Definition shareButtonsShown (s : AppState) : bool :=
  hasDirections s && negb (isLoading s).

(** How a call of the async function [reqRigList] settles. *)
Inductive Settled (A : Type) : Type :=
| Resolved (value : option A)
| Rejected.
Arguments Resolved {A} value.
Arguments Rejected {A}.

(** How its request ends: [fetch] rejects, or resolves to a response with
    its [ok] flag whose [json()] resolves to a value or rejects. *)
Inductive RigOutcome (A : Type) : Type :=
| RigNetworkFailure
| RigResponse (ok : bool) (body : option A).
Arguments RigNetworkFailure {A}.
Arguments RigResponse {A} ok body.

(** [reqRigList] of [index.ts]: the promise of [json()] is returned without
    being awaited, so the [catch] covers the request and the status test
    only; after the [catch] the function ends without a value. *)
Definition reqRigList {A : Type} (outcome : RigOutcome A) : Settled A * list Effect :=
  match outcome with
  | RigNetworkFailure => (Resolved None, [ConsoleError])
  | RigResponse false _ => (Resolved None, [ConsoleError])
  | RigResponse true (Some result) => (Resolved (Some result), [])
  | RigResponse true None => (Rejected, [])
  end.

(* ================================================================== *)
(** ** What holds of the component in every run *)
(* ================================================================== *)

(** The selection step agrees with the markers and the two texts. *)
Definition selectionConsistent (toStringLarge : float -> string) (s : AppState) : Prop :=
  match currentStep s with
  | StepStart =>
      startMarkerRef s = None /\ endMarkerRef s = None
      /\ startLocation s = "" /\ endLocation s = ""
  | StepEnd =>
      exists origin,
        startMarkerRef s = Some origin
        /\ startLocation s = coordsText toStringLarge origin
        /\ endMarkerRef s = None /\ endLocation s = ""
  | StepComplete =>
      exists origin destination,
        startMarkerRef s = Some origin
        /\ startLocation s = coordsText toStringLarge origin
        /\ endMarkerRef s = Some destination
        /\ endLocation s = coordsText toStringLarge destination
  end.

(** The ['route'] source is on the map. *)
Definition routeDrawn (s : AppState) : bool :=
  match mapRef s with
  | Some {| routeSource := Some _ |} => true
  | _ => false
  end.

Definition coherent (toStringLarge : float -> string) (w : World) : Prop :=
  selectionConsistent toStringLarge (component w)
  /\ routeDrawn (component w) = hasDirections (component w)
  /\ ((currentStep (component w) <> StepStart \/ 0 < inFlight w) ->
      mapRef (component w) <> None).

(** The response decides the [catch] block: the request failed, the body
    does not parse, or the first route has no leg. *)
Definition throws (outcome : FetchOutcome) : bool :=
  match outcome with
  | NetworkFailure => true
  | Response false _ => true
  | Response true InvalidJson => true
  | Response true (Json data) =>
      match MapboxDirectionsResponse.routes data with
      | Some (route :: _) =>
          match MapboxRoute.legs route with
          | [] => true
          | _ :: _ => false
          end
      | Some [] | None => false
      end
  end.

(** Decimal digits, and texts made of them. *)
Definition isDigit (c : ascii) : bool :=
  let n := code c in ((48 <=? n) && (n <=? 57))%N.

Fixpoint allDigits (s : string) : bool :=
  match s with
  | EmptyString => true
  | String c s' => isDigit c && allDigits s'
  end.

(** A number that is neither [NaN] nor infinite. *)
Definition isFinite (x : float) : bool :=
  match Prim2SF x with
  | S754_zero _ | S754_finite _ _ _ => true
  | S754_infinity _ | S754_nan => false
  end.

(** The component after two taps, before a submission. *)
Definition selected : World :=
  {| component :=
       handleMapClick sampleToStringLarge paris
         (handleMapClick sampleToStringLarge london mapReady);
     inFlight := 0 |}.

Definition sampleNumberToString : float -> string := fun _ => "0".

(** The page after a press that was released early and a second press. *)
Definition pressedPage : MapPage :=
  {| pressTimer := Some 2; feedbackMarker := Some paris; clock := 100;
     nextTimer := 3; timers := [(2, {| due := 600; target := paris |})];
     appState := mapReady |}.

(* ================================================================== *)
(** ** Strings: lower-casing and occurrence *)
(* ================================================================== *)

Lemma toLowerCase_app (a b : string) :
  toLowerCase (a ++ b) = toLowerCase a ++ toLowerCase b.
Proof.
  induction a as [|c a IH]; simpl; [reflexivity | now rewrite IH].
Qed.

Lemma prefix_app (w x : string) : prefix w (w ++ x) = true.
Proof.
  induction w as [|c w IH]; simpl.
  - now destruct x.
  - destruct (ascii_dec c c) as [_|n]; [exact IH | now elim n].
Qed.

Lemma includes_prefix (s kw : string) : prefix kw s = true -> includes s kw = true.
Proof.
  intros H. destruct s; cbn [includes]; now rewrite H.
Qed.

Lemma includes_tail (c : ascii) (s kw : string) :
  includes s kw = true -> includes (String c s) kw = true.
Proof.
  intros H. cbn [includes]. rewrite H. now destruct (prefix kw (String c s)).
Qed.

Lemma includes_app (pre w post : string) : includes (pre ++ w ++ post) w = true.
Proof.
  induction pre as [|c pre IH]; cbn [append].
  - apply includes_prefix, prefix_app.
  - apply includes_tail, IH.
Qed.

Lemma includes_anyCase (kw s : string) :
  occursAnyCase kw s -> includes (toLowerCase s) kw = true.
Proof.
  intros (pre & w & post & -> & <-).
  rewrite !toLowerCase_app. apply includes_app.
Qed.

Lemma prefix_inv (kw s : string) :
  prefix kw s = true -> exists post, s = kw ++ post.
Proof.
  revert s. induction kw as [|c kw IH]; intros s.
  - intros _. now exists s.
  - destruct s as [|c' s]; cbn [prefix]; [discriminate|].
    destruct (ascii_dec c c') as [<-|_]; [|discriminate].
    intros H. destruct (IH _ H) as (post & ->). now exists post.
Qed.

Lemma includes_inv (s kw : string) :
  includes s kw = true -> exists pre post, s = pre ++ kw ++ post.
Proof.
  induction s as [|c s IH]; cbn [includes].
  - destruct (prefix kw EmptyString) eqn:E; [|discriminate].
    intros _. destruct (prefix_inv _ _ E) as (post & ->). now exists EmptyString, post.
  - destruct (prefix kw (String c s)) eqn:E.
    + intros _. destruct (prefix_inv _ _ E) as (post & ->). now exists EmptyString, post.
    + intros H. destruct (IH H) as (pre & post & ->). now exists (String c pre), post.
Qed.

Lemma toLowerCase_app_inv (s a b : string) :
  toLowerCase s = a ++ b ->
  exists sa sb, s = sa ++ sb /\ toLowerCase sa = a /\ toLowerCase sb = b.
Proof.
  revert s. induction a as [|c a IH]; intros s; cbn [append].
  - intros H. now exists EmptyString, s.
  - destruct s as [|c' s]; cbn [toLowerCase]; [discriminate|].
    intros [= Hc H]. destruct (IH _ H) as (sa & sb & -> & Ha & Hb).
    exists (String c' sa), sb. cbn [append toLowerCase]. now rewrite Hc, Ha.
Qed.

(** The program's test for a keyword, on the lower-cased text, holds
    exactly when the keyword occurs in the text in some letter case. *)
Lemma includes_occursAnyCase (kw s : string) :
  includes (toLowerCase s) kw = true <-> occursAnyCase kw s.
Proof.
  split; [|apply includes_anyCase].
  intros H. destruct (includes_inv _ _ H) as (pre & post & E).
  destruct (toLowerCase_app_inv _ _ _ E) as (spre & srest & -> & _ & E').
  destruct (toLowerCase_app_inv _ _ _ E') as (w & spost & -> & Hw & _).
  now exists spre, w, spost.
Qed.

Lemma isSignificant_keywords (instruction : string) (distance : float) :
  isSignificant instruction distance
  = existsb (includes instruction) keywords || (1000 <? distance)%float.
Proof.
  unfold isSignificant, keywords. cbn [existsb].
  now rewrite orb_false_r, !orb_assoc.
Qed.

(* ================================================================== *)
(** ** The road pattern captures one code unit *)
(* ================================================================== *)

Lemma oneChar_passesOn p : passesOn (oneChar p).
Proof.
  intros k [|ch rest] cap y; cbn; [discriminate|].
  destruct (p ch); [|discriminate]. intros H. now exists rest.
Qed.

Lemma iterate_passesOn m greedy fuel :
  passesOn m -> passesOn (fun k => iterate m greedy k fuel).
Proof.
  intros Hm. induction fuel as [|fuel IH]; intros k rest cap y; cbn [iterate];
    [discriminate|].
  intros H. apply Hm in H. destruct H as (rest' & H).
  destruct greedy.
  - destruct (iterate m true k fuel rest' cap) eqn:E.
    + injection H as <-. exact (IH _ _ _ _ E).
    + now exists rest'.
  - destruct (k rest' cap) eqn:E.
    + injection H as <-. now exists rest'.
    + exact (IH _ _ _ _ H).
Qed.

Lemma matcher_passesOn ignoreCase r :
  groupFree r = true -> passesOn (matcher ignoreCase r).
Proof.
  induction r as [|c| | |cs| |r1 IH1 r2 IH2|r1 IH1 r2 IH2|greedy r1 IH1|r1 IH1];
    cbn [groupFree matcher]; intros Hfree.
  - intros k rest cap y H. now exists rest.
  - apply oneChar_passesOn.
  - apply oneChar_passesOn.
  - apply oneChar_passesOn.
  - apply oneChar_passesOn.
  - intros k [|ch rest] cap y; [|discriminate]. intros H. now exists EmptyString.
  - apply andb_prop in Hfree. destruct Hfree as [H1 H2].
    intros k rest cap y H.
    apply (IH1 H1) in H. destruct H as (rest1 & H).
    exact (IH2 H2 _ _ _ _ H).
  - apply andb_prop in Hfree. destruct Hfree as [H1 H2].
    intros k rest cap y H.
    destruct (matcher ignoreCase r1 k rest cap) eqn:E.
    + injection H as <-. exact (IH1 H1 _ _ _ _ E).
    + exact (IH2 H2 _ _ _ _ H).
  - intros k rest cap y H.
    exact (iterate_passesOn _ greedy _ (IH1 Hfree) _ _ _ _ H).
  - discriminate.
Qed.

Lemma iterate_oneChar_S p greedy k fuel ch rest cap :
  iterate (oneChar p) greedy k (S fuel) (String ch rest) cap
  = if p ch then
      if greedy then
        match iterate (oneChar p) greedy k fuel rest cap with
        | Some y => Some y
        | None => k rest cap
        end
      else
        match k rest cap with
        | Some y => Some y
        | None => iterate (oneChar p) greedy k fuel rest cap
        end
    else None.
Proof. reflexivity. Qed.

(** The iteration bound is never what ends a repetition of a one-character
    pattern: with one iteration more than there are characters left, any
    further iteration changes nothing. *)
Lemma iterate_fuel_enough p greedy k : forall fuel rest cap,
  String.length rest < fuel ->
  iterate (oneChar p) greedy k (S fuel) rest cap
  = iterate (oneChar p) greedy k fuel rest cap.
Proof.
  induction fuel as [|fuel IH]; intros rest cap Hlen; [lia|].
  destruct rest as [|ch rest]; [reflexivity|].
  rewrite (iterate_oneChar_S p greedy k (S fuel)), (iterate_oneChar_S p greedy k fuel).
  cbn [String.length] in Hlen.
  assert (E : iterate (oneChar p) greedy k (S fuel) rest cap
              = iterate (oneChar p) greedy k fuel rest cap).
  { destruct fuel as [|fuel'].
    - destruct rest; [reflexivity|cbn [String.length] in Hlen; lia].
    - apply IH. lia. }
  now rewrite E.
Qed.

(** White space includes the line terminators, so a code unit is white
    space or matched by the dot. *)
Lemma whiteSpace_or_dot ch :
  inSet true whiteSpaceSet ch = false -> isLineTerminator ch = false.
Proof.
  destruct ch as [[] [] [] [] [] [] [] []]; vm_compute; congruence.
Qed.

(** The last part of the pattern, [(?:\s|$|,|.)], matches wherever it is
    tried: at the end of the input, or on the next code unit. *)
Lemma terminator_matches rest cap :
  exists rest',
    matcher true (Alt WhiteSpaceClass (Alt EndAnchor (Alt (Lit ",") Dot)))
      accept rest cap = Some (rest', cap).
Proof.
  destruct rest as [|ch rest]; cbn [matcher oneChar].
  - now exists EmptyString.
  - exists rest. unfold accept.
    destruct (inSet true whiteSpaceSet ch) eqn:E; [reflexivity|].
    destruct (charEq true "," ch); [reflexivity|].
    now rewrite (whiteSpace_or_dot _ E).
Qed.

Lemma matcher_Seq ignoreCase r1 r2 k rest cap :
  matcher ignoreCase (Seq r1 r2) k rest cap
  = matcher ignoreCase r1 (matcher ignoreCase r2 k) rest cap.
Proof. reflexivity. Qed.

(** Every match of the pattern leaves exactly one code unit in the group,
    and it is neither a comma nor a period. *)
Lemma roadPattern_matcher_group s rest cap :
  matcher true roadPattern accept s None = Some (rest, cap) ->
  exists ch, cap = Some (String ch EmptyString)
             /\ inSet true [","%char; "."%char] ch = false.
Proof.
  unfold roadPattern. rewrite matcher_Seq. intros H.
  apply matcher_passesOn in H; [|reflexivity].
  destruct H as (rest1 & H).
  rewrite matcher_Seq in H.
  apply matcher_passesOn in H; [|reflexivity].
  destruct H as (rest2 & H).
  rewrite matcher_Seq in H.
  set (terminator := matcher true _ accept) in H.
  cbn [iterate matcher oneChar] in H.
  destruct rest2 as [|ch rest2]; cbn [oneChar] in H; [discriminate|].
  destruct (inSet true [","%char; "."%char] ch) eqn:E; cbn [negb] in H; [discriminate|].
  exists ch. split; [|exact E].
  cbn [String.length] in H.
  replace (S (String.length rest2) - String.length rest2) with 1 in H by lia.
  cbn [substring] in H.
  replace (substring 0 0 rest2) with EmptyString in H by now destruct rest2.
  destruct (terminator_matches rest2 (Some (String ch EmptyString))) as (rest' & Ht).
  fold terminator in Ht. rewrite Ht in H. now injection H as _ <-.
Qed.

Lemma exec_group ignoreCase r (P : option string -> Prop) :
  (forall s rest cap, matcher ignoreCase r accept s None = Some (rest, cap) -> P cap) ->
  forall s m, exec ignoreCase r s = Some m -> P (group1 m).
Proof.
  intros HP s. induction s as [|ch s IH]; intros m; cbn [exec].
  - destruct (matcher ignoreCase r accept EmptyString None) as [[rest cap]|] eqn:E; [|discriminate].
    intros [= <-]. exact (HP _ _ _ E).
  - destruct (matcher ignoreCase r accept (String ch s) None) as [[rest cap]|] eqn:E.
    + intros [= <-]. exact (HP _ _ _ E).
    + apply IH.
Qed.

(** The text [roadMatch[1]] is defined on every match, and is one code
    unit long. *)
Lemma roadPattern_group_defined instruction m :
  roadMatch instruction = Some m ->
  exists ch, group1 m = Some (String ch EmptyString)
             /\ inSet true [","%char; "."%char] ch = false.
Proof.
  apply (exec_group true roadPattern
           (fun cap => exists ch, cap = Some (String ch EmptyString)
                                  /\ inSet true [","%char; "."%char] ch = false)).
  intros s rest cap. apply roadPattern_matcher_group.
Qed.

(** *** Where the pattern matches *)

Lemma inSet_whiteSpace ch : inSet true whiteSpaceSet ch = isWhiteSpace ch.
Proof.
  destruct ch as [[] [] [] [] [] [] [] []]; vm_compute; reflexivity.
Qed.

Lemma inSet_comma_period ch :
  ch <> ","%char -> ch <> "."%char -> inSet true [","%char; "."%char] ch = false.
Proof.
  intros Hc Hp.
  destruct ch as [[] [] [] [] [] [] [] []]; vm_compute; try reflexivity;
    [now elim Hc|now elim Hp].
Qed.

(** The group and the last part match on any code unit that is neither a
    comma nor a period. *)
Lemma group_matches ch rest cap :
  inSet true [","%char; "."%char] ch = false ->
  exists y,
    matcher true
      (Seq (Group (Plus false (NotOneOf [","%char; "."%char])))
           (Alt WhiteSpaceClass (Alt EndAnchor (Alt (Lit ",") Dot))))
      accept (String ch rest) cap = Some y.
Proof.
  intros Hch. rewrite matcher_Seq.
  set (terminator := matcher true _ accept).
  cbn [iterate matcher oneChar]. rewrite Hch. cbn [negb].
  destruct (terminator_matches rest
              (Some (substring 0 (String.length (String ch rest) - String.length rest)
                       (String ch rest)))) as (rest' & Ht).
  fold terminator in Ht. rewrite Ht. now eexists.
Qed.

(** The greedy white space takes all of a run of white space and then lets
    the rest of the pattern match on what follows, if it can. *)
Lemma whiteSpace_run_matches k ws : forall fuel tail cap,
  ws <> EmptyString ->
  allWhiteSpace ws = true ->
  String.length ws <= fuel ->
  (exists y, k tail cap = Some y) ->
  exists y,
    iterate (oneChar (inSet true whiteSpaceSet)) true k fuel (ws ++ tail) cap = Some y.
Proof.
  induction ws as [|w ws IH]; intros fuel tail cap Hne Hall Hlen Hk; [now elim Hne|].
  cbn [allWhiteSpace] in Hall. apply andb_prop in Hall. destruct Hall as [Hw Hall].
  destruct fuel as [|fuel]; cbn [String.length] in Hlen; [lia|].
  cbn [append]. rewrite iterate_oneChar_S, inSet_whiteSpace, Hw.
  destruct (iterate _ true k fuel (ws ++ tail) cap) as [y|] eqn:E; [now exists y|].
  destruct ws as [|w' ws'].
  - exact Hk.
  - destruct (IH fuel tail cap ltac:(discriminate) Hall ltac:(lia) Hk) as (y & Hy).
    rewrite Hy in E. discriminate.
Qed.

Lemma preposition_matches k prep tail :
  In prep prepositions ->
  (exists y, k tail None = Some y) ->
  exists y,
    matcher true (Alt (lits "on") (Alt (lits "onto") (lits "along")))
      k (prep ++ tail) None = Some y.
Proof.
  intros Hin (y & Hy).
  destruct Hin as [<-|[<-|[<-|[]]]]; cbn [append].
  - exists y. cbn. now rewrite Hy.
  - cbn [matcher]. destruct (matcher true (lits "on") k _ None) as [y'|]; [now exists y'|].
    exists y. cbn. now rewrite Hy.
  - exists y. cbn. now rewrite Hy.
Qed.

Lemma length_append_le (a b : string) :
  String.length a <= String.length (a ++ b).
Proof.
  induction a as [|c a IH]; cbn [append String.length]; lia.
Qed.

Lemma exec_found ignoreCase r pre s :
  (exists y, matcher ignoreCase r accept s None = Some y) ->
  exists m, exec ignoreCase r (pre ++ s) = Some m.
Proof.
  intros Hs.
  assert (H0 : exists m, exec ignoreCase r s = Some m).
  { destruct Hs as ([rest cap] & Hy). destruct s; cbn [exec]; rewrite Hy; now eexists. }
  induction pre as [|c pre IH]; cbn [append]; [exact H0|].
  cbn [exec].
  destruct (matcher ignoreCase r accept (String c (pre ++ s)) None) as [[rest cap]|];
    [now eexists|exact IH].
Qed.

(* ================================================================== *)
(** ** Numbers: comparison *)
(* ================================================================== *)

Lemma SFleb_SFltb_false (a b : spec_float) : SFleb a b = true -> SFltb b a = false.
Proof.
  unfold SFleb, SFltb.
  destruct a as [sa|sa| |sa ma ea], b as [sb|sb| |sb mb eb]; simpl;
    try discriminate; try reflexivity;
    try (destruct sa; try discriminate; reflexivity);
    try (destruct sb; try discriminate; reflexivity);
    try (destruct sa, sb; try discriminate; reflexivity).
  destruct sa, sb; try discriminate; try reflexivity;
    rewrite (Z.compare_antisym ea eb);
    destruct (ea ?= eb)%Z; simpl; try discriminate; try reflexivity;
    change PosDef.Pos.compare_cont with Pos.compare_cont;
    rewrite (ZC4 mb ma);
    destruct (Pos.compare_cont Eq ma mb); simpl; try discriminate; reflexivity.
Qed.

(** [d <= x] excludes [x < d]; both fail when [d] is [NaN]. *)
Lemma leb_ltb_false (d x : float) : (d <=? x)%float = true -> (x <? d)%float = false.
Proof.
  rewrite leb_spec, ltb_spec. apply SFleb_SFltb_false.
Qed.

(** The integer [toFixed] prints is the nearest one to [x * 10^f], and the
    larger of the two on a tie: [n - 1/2 <= x * 10^f < n + 1/2] for
    [x = m * 2^e]. *)
Lemma nearestScaled_nearest (m : positive) (e : Z) (f : nat) :
  let n := nearestScaled m e f in
  let scaled := (Z.pos m * 10 ^ Z.of_nat f)%Z in
  ((0 <= e)%Z -> n = (scaled * 2 ^ e)%Z)
  /\ ((e < 0)%Z ->
      ((2 * n - 1) * 2 ^ (- e) <= 2 * scaled < (2 * n + 1) * 2 ^ (- e))%Z).
Proof.
  intros n scaled. unfold n, nearestScaled. fold scaled.
  destruct (0 <=? e)%Z eqn:E; [apply Z.leb_le in E|apply Z.leb_gt in E];
    (split; [intros H|intros H]); try lia.
  assert (Hd : (0 < 2 ^ (- e))%Z) by (apply Z.pow_pos_nonneg; lia).
  set (d := (2 ^ (- e))%Z) in *.
  pose proof (Z.div_mod (2 * scaled + d) (2 * d) ltac:(lia)) as Hdiv.
  pose proof (Z.mod_pos_bound (2 * scaled + d) (2 * d) ltac:(lia)) as Hmod.
  set (q := ((2 * scaled + d) / (2 * d))%Z) in *.
  set (r := ((2 * scaled + d) mod (2 * d))%Z) in *.
  nia.
Qed.

(* ================================================================== *)
(** ** The simplification loop in closed form *)
(* ================================================================== *)

Section Simplification.

Variable toStringLarge : float -> string.

Local Abbreviation forEachBody := (forEachBody toStringLarge).
Local Abbreviation entryOf := (entryOf toStringLarge).
Local Abbreviation entriesFrom := (entriesFrom toStringLarge).
Local Abbreviation simplifySteps := (simplifySteps toStringLarge).
Local Abbreviation directRoute := (directRoute toStringLarge).
Local Abbreviation miles := (miles toStringLarge).

Lemma forEachBody_included acc k step :
  included step = true ->
  forEachBody (acc, k) step = ((acc ++ [entryOf k step])%list, S k).
Proof.
  unfold included, forEachBody, entryOf.
  destruct (roadMatch _) as [m|]; [|discriminate].
  now intros ->.
Qed.

Lemma forEachBody_excluded acc step :
  included step = false -> forEachBody acc step = acc.
Proof.
  unfold included, forEachBody. destruct acc as [simplifiedSteps stepCounter].
  destruct (roadMatch _) as [m|]; [|reflexivity].
  now intros ->.
Qed.

Lemma forEach_entriesFrom steps : forall acc k,
  fold_left forEachBody steps (acc, k)
  = ((acc ++ entriesFrom k steps)%list, k + List.length (entriesFrom k steps)).
Proof.
  induction steps as [|step steps IH]; intros acc k; cbn [fold_left entriesFrom].
  - now rewrite app_nil_r, Nat.add_0_r.
  - destruct (included step) eqn:E.
    + rewrite (forEachBody_included _ _ _ E), IH, <- app_assoc.
      cbn [List.length app]. f_equal. lia.
    + rewrite (forEachBody_excluded _ _ E). apply IH.
Qed.

Lemma entriesFrom_length steps : forall k,
  List.length (entriesFrom k steps) = List.length (filter included steps).
Proof.
  induction steps as [|step steps IH]; intros k; cbn [entriesFrom filter]; [reflexivity|].
  destruct (included step); cbn [List.length]; now rewrite IH.
Qed.

Lemma entriesFrom_app pre post : forall k,
  entriesFrom k (pre ++ post)
  = (entriesFrom k pre
       ++ entriesFrom (k + List.length (filter included pre)) post)%list.
Proof.
  induction pre as [|step pre IH]; intros k; cbn [entriesFrom filter app].
  - now rewrite Nat.add_0_r.
  - destruct (included step); cbn [List.length app].
    + rewrite IH. do 3 f_equal. lia.
    + apply IH.
Qed.

Lemma entriesFrom_ordinal steps : forall k j e,
  nth_error (entriesFrom k steps) j = Some e -> DirectionStep.step e = k + j.
Proof.
  induction steps as [|step steps IH]; intros k j e; cbn [entriesFrom].
  - now destruct j.
  - destruct (included step); [|apply IH].
    destruct j as [|j]; cbn [nth_error].
    + intros [= <-]. cbn. lia.
    + intros H. rewrite (IH _ _ _ H). lia.
Qed.

Lemma entriesFrom_excluded steps :
  (forall step, In step steps -> included step = false) ->
  forall k, entriesFrom k steps = [].
Proof.
  induction steps as [|step steps IH]; intros H k; cbn [entriesFrom]; [reflexivity|].
  rewrite (H step (or_introl eq_refl)). apply IH.
  intros step' Hin. apply H. now right.
Qed.

(** The simplified steps are the entries of the included steps, numbered
    from 1, or the one synthetic entry when there is none. *)
Lemma simplifySteps_entries leg :
  simplifySteps leg
  = match entriesFrom 1 (Leg.steps leg) with
    | [] => [directRoute leg]
    | entries => entries
    end.
Proof.
  unfold simplifySteps. rewrite forEach_entriesFrom. cbn [fst app].
  now destruct (entriesFrom 1 (Leg.steps leg)).
Qed.

Lemma simplifySteps_ordinal leg j e :
  nth_error (simplifySteps leg) j = Some e -> DirectionStep.step e = S j.
Proof.
  rewrite simplifySteps_entries.
  destruct (entriesFrom 1 (Leg.steps leg)) eqn:E.
  - destruct j as [|[|j]]; cbn; try discriminate. now intros [= <-].
  - rewrite <- E. apply entriesFrom_ordinal.
Qed.

(** The entry of an included step sits after the entries of the included
    steps before it. *)
Lemma simplifySteps_included leg pre step post :
  Leg.steps leg = (pre ++ step :: post)%list ->
  included step = true ->
  nth_error (simplifySteps leg) (List.length (filter included pre))
  = Some (entryOf (S (List.length (filter included pre))) step).
Proof.
  intros Hsteps Hinc.
  rewrite simplifySteps_entries, Hsteps, entriesFrom_app.
  cbn [entriesFrom]. rewrite Hinc.
  set (entries := (_ ++ _)%list).
  assert (Hnth : nth_error entries (List.length (filter included pre))
                 = Some (entryOf (S (List.length (filter included pre))) step)).
  { unfold entries. rewrite nth_error_app2; rewrite entriesFrom_length; [|lia].
    now rewrite Nat.sub_diag. }
  destruct entries; [|exact Hnth].
  now destruct (List.length (filter included pre)).
Qed.

(** Leaving out a step that is not included changes nothing. *)
Lemma simplifySteps_excluded leg pre step post :
  Leg.steps leg = (pre ++ step :: post)%list ->
  included step = false ->
  simplifySteps leg
  = simplifySteps {| Leg.steps := pre ++ post; Leg.distance := Leg.distance leg |}.
Proof.
  intros Hsteps Hexc.
  rewrite !simplifySteps_entries, Hsteps. cbn [Leg.steps].
  rewrite !entriesFrom_app. cbn [entriesFrom]. rewrite Hexc.
  reflexivity.
Qed.

End Simplification.

(* ================================================================== *)
(** ** The simplified output *)
(* ================================================================== *)

(** C2, as stated, fails: a step whose instruction names a highway but has
    no "on", "onto" or "along" before a road name is not in the output. Here
    the leg's only step is such a one, and the output is the synthetic
    entry alone. *)
Lemma highway_step_without_road_match_left_out :
  occursAnyCase "highway" (MapboxStep.instruction towardHighway)
  /\ roadMatch (toLowerCase (MapboxStep.instruction towardHighway)) = None
  /\ simplifySteps sampleToStringLarge
       {| Leg.steps := [towardHighway]; Leg.distance := 5000 |}
     = [{| DirectionStep.step := 1;
           DirectionStep.instruction := "Direct route";
           DirectionStep.distance := "3.1 mi" |}].
Proof.
  split; [|split].
  - exists "Merge left toward ", "Highway", " 101". split; reflexivity.
  - vm_compute. reflexivity.
  - vm_compute. reflexivity.
Qed.

(** C2, amended: a step whose instruction contains "Highway" in any letter
    case and matches the extraction pattern is in the simplified output
    whatever its distance, after the entries of the included steps before
    it; and every entry's ordinal is its 1-based position in the output. *)
Theorem highway_step_with_road_match_included
        (toStringLarge : float -> string)
        (leg : Leg.t) (pre post : list MapboxStep.t) (step : MapboxStep.t)
        (m : MatchResult) :
  Leg.steps leg = (pre ++ step :: post)%list ->
  occursAnyCase "highway" (MapboxStep.instruction step) ->
  roadMatch (toLowerCase (MapboxStep.instruction step)) = Some m ->
  let output := simplifySteps toStringLarge leg in
  let position := List.length (filter included pre) in
  nth_error output position
  = Some {| DirectionStep.step := S position;
            DirectionStep.instruction := trim (groupText m);
            DirectionStep.distance :=
              toFixed toStringLarge
                (MapboxStep.distance step * 0.000621371)%float 1 ++ " mi" |}
  /\ (forall j entry, nth_error output j = Some entry ->
                      DirectionStep.step entry = S j).
Proof.
  intros Hsteps Hhighway Hmatch output position. split.
  - assert (Hinc : included step = true).
    { unfold included. rewrite Hmatch. unfold isSignificant.
      now rewrite (includes_anyCase _ _ Hhighway). }
    unfold output, position.
    rewrite (simplifySteps_included _ _ _ _ _ Hsteps Hinc).
    unfold entryOf. now rewrite Hmatch.
  - intros j entry. apply simplifySteps_ordinal.
Qed.

Lemma highway_step_with_road_match_included_witness :
  nth_error (simplifySteps sampleToStringLarge
               {| Leg.steps := [mainStreet; elmStreet; ontoHighway];
                  Leg.distance := 2400 |}) 1
  = Some {| DirectionStep.step := 2;
            DirectionStep.instruction := "h";
            DirectionStep.distance := "0.2 mi" |}
  /\ (forall j entry,
        nth_error (simplifySteps sampleToStringLarge
                     {| Leg.steps := [mainStreet; elmStreet; ontoHighway];
                        Leg.distance := 2400 |}) j = Some entry ->
        DirectionStep.step entry = S j).
Proof.
  apply (highway_step_with_road_match_included sampleToStringLarge
           {| Leg.steps := [mainStreet; elmStreet; ontoHighway];
              Leg.distance := 2400 |}
           [mainStreet; elmStreet] [] ontoHighway
           {| matched := "onto hi"; group1 := Some "h" |}).
  - reflexivity.
  - exists "Turn left onto ", "HIGHWAY", " 101". split; reflexivity.
  - vm_compute. reflexivity.
Defined.

(** C3: when no step of the leg is included, the output is the one entry
    "Direct route" with ordinal 1 and the leg's distance in miles, to one
    decimal place. *)
Theorem no_step_included_direct_route
        (toStringLarge : float -> string) (leg : Leg.t) :
  (forall step, In step (Leg.steps leg) -> included step = false) ->
  simplifySteps toStringLarge leg
  = [{| DirectionStep.step := 1;
        DirectionStep.instruction := "Direct route";
        DirectionStep.distance :=
          toFixed toStringLarge (Leg.distance leg * 0.000621371)%float 1 ++ " mi" |}].
Proof.
  intros Hnone. rewrite simplifySteps_entries.
  now rewrite (entriesFrom_excluded _ _ Hnone).
Qed.

Lemma no_step_included_direct_route_witness :
  simplifySteps sampleToStringLarge
    {| Leg.steps := [towardHighway; elmStreet]; Leg.distance := 5100 |}
  = [{| DirectionStep.step := 1;
        DirectionStep.instruction := "Direct route";
        DirectionStep.distance :=
          toFixed sampleToStringLarge (5100 * 0.000621371)%float 1 ++ " mi" |}].
Proof.
  apply (no_step_included_direct_route sampleToStringLarge
           {| Leg.steps := [towardHighway; elmStreet]; Leg.distance := 5100 |}).
  intros step [<-|[<-|[]]]; vm_compute; reflexivity.
Defined.

(** C4: a step whose instruction contains none of the keywords, in any
    letter case, and whose distance is at most 1000 meters is excluded: the
    loop passes over it, and the output is the one of the leg without it. *)
Theorem insignificant_step_excluded
        (toStringLarge : float -> string)
        (leg : Leg.t) (pre post : list MapboxStep.t) (step : MapboxStep.t) :
  Leg.steps leg = (pre ++ step :: post)%list ->
  (forall kw, In kw keywords -> ~ occursAnyCase kw (MapboxStep.instruction step)) ->
  (MapboxStep.distance step <=? 1000)%float = true ->
  included step = false
  /\ (forall acc, forEachBody toStringLarge acc step = acc)
  /\ simplifySteps toStringLarge leg
     = simplifySteps toStringLarge
         {| Leg.steps := pre ++ post; Leg.distance := Leg.distance leg |}.
Proof.
  intros Hsteps Hkw Hdist.
  assert (Hexc : included step = false).
  { unfold included. destruct (roadMatch _); [|reflexivity].
    rewrite isSignificant_keywords, (leb_ltb_false _ _ Hdist), orb_false_r.
    apply not_true_is_false. intros H.
    apply existsb_exists in H. destruct H as (kw & Hin & H).
    apply (Hkw kw Hin). now apply includes_occursAnyCase. }
  split; [exact Hexc|]. split.
  - intros acc. now apply forEachBody_excluded.
  - now apply simplifySteps_excluded with (step := step).
Qed.

Lemma insignificant_step_excluded_witness :
  included elmStreet = false
  /\ (forall acc, forEachBody sampleToStringLarge acc elmStreet = acc)
  /\ simplifySteps sampleToStringLarge
       {| Leg.steps := [mainStreet; elmStreet; oneMile]; Leg.distance := 3709 |}
     = simplifySteps sampleToStringLarge
         {| Leg.steps := [mainStreet] ++ [oneMile]; Leg.distance := 3709 |}.
Proof.
  apply (insignificant_step_excluded sampleToStringLarge
           {| Leg.steps := [mainStreet; elmStreet; oneMile]; Leg.distance := 3709 |}
           [mainStreet] [oneMile] elmStreet).
  - reflexivity.
  - intros kw Hin Hocc. apply includes_occursAnyCase in Hocc.
    destruct Hin as [<-|[<-|[<-|[<-|[<-|[<-|[<-|[]]]]]]]];
      vm_compute in Hocc; discriminate.
  - vm_compute. reflexivity.
Defined.

(** C5: the entry of an included step shows the step's distance in meters
    times 0.000621371, printed by [toFixed(1)] and followed by " mi"; for a
    step of 1609 meters that is "1.0 mi". *)
Theorem included_step_distance_in_miles
        (toStringLarge : float -> string)
        (leg : Leg.t) (pre post : list MapboxStep.t) (step : MapboxStep.t) :
  Leg.steps leg = (pre ++ step :: post)%list ->
  included step = true ->
  exists entry,
    nth_error (simplifySteps toStringLarge leg) (List.length (filter included pre))
    = Some entry
    /\ DirectionStep.distance entry
       = toFixed toStringLarge (MapboxStep.distance step * 0.000621371)%float 1 ++ " mi"
    /\ (MapboxStep.distance step = 1609%float ->
        DirectionStep.distance entry = "1.0 mi").
Proof.
  intros Hsteps Hinc.
  exists (entryOf toStringLarge (S (List.length (filter included pre))) step).
  split; [now apply simplifySteps_included with (post := post)|].
  split; [reflexivity|].
  intros Hd. cbn [entryOf DirectionStep.distance]. unfold miles. rewrite Hd.
  vm_compute. reflexivity.
Qed.

Lemma included_step_distance_in_miles_witness :
  exists entry,
    nth_error (simplifySteps sampleToStringLarge
                 {| Leg.steps := [mainStreet; elmStreet; oneMile];
                    Leg.distance := 3709 |})
              (List.length (filter included [mainStreet; elmStreet]))
    = Some entry
    /\ DirectionStep.distance entry
       = toFixed sampleToStringLarge
           (MapboxStep.distance oneMile * 0.000621371)%float 1 ++ " mi"
    /\ (MapboxStep.distance oneMile = 1609%float ->
        DirectionStep.distance entry = "1.0 mi").
Proof.
  apply (included_step_distance_in_miles sampleToStringLarge
           {| Leg.steps := [mainStreet; elmStreet; oneMile]; Leg.distance := 3709 |}
           [mainStreet; elmStreet] [] oneMile).
  - reflexivity.
  - vm_compute. reflexivity.
Defined.

(** C1: on the instruction "Turn right onto Main Street" the pattern
    matches "onto ma" and its group holds "m", so the road name shown for
    the step is "m", not the text up to the next comma, period or end. *)
Theorem road_name_of_main_street :
  roadMatch (toLowerCase (MapboxStep.instruction mainStreet))
  = Some {| matched := "onto ma"; group1 := Some "m" |}
  /\ simplifySteps sampleToStringLarge
       {| Leg.steps := [mainStreet]; Leg.distance := 2000 |}
     = [{| DirectionStep.step := 1;
           DirectionStep.instruction := "m";
           DirectionStep.distance := "1.2 mi" |}].
Proof.
  split; vm_compute; reflexivity.
Qed.

(** X1: the road name of every entry that comes from a step is at most one
    code unit long: the one code unit the group holds, or nothing when that
    is white space. *)
Theorem road_name_at_most_one_code_unit
        (toStringLarge : float -> string) (leg : Leg.t) (entry : DirectionStep.t) :
  In entry (simplifySteps toStringLarge leg) ->
  entry = directRoute toStringLarge leg
  \/ String.length (DirectionStep.instruction entry) <= 1.
Proof.
  rewrite simplifySteps_entries.
  assert (H : forall steps k, In entry (entriesFrom toStringLarge k steps) ->
                              String.length (DirectionStep.instruction entry) <= 1).
  { induction steps as [|step steps IH]; intros k; cbn [entriesFrom]; [intros []|].
    destruct (included step) eqn:Hinc; [|apply IH].
    intros [<-|Hin]; [|exact (IH _ Hin)].
    cbn [entryOf DirectionStep.instruction].
    destruct (roadMatch _) as [m|] eqn:Hm; [|cbn; lia].
    destruct (roadPattern_group_defined _ _ Hm) as (ch & Hg & _).
    unfold groupText. rewrite Hg. unfold trim. cbn [trimStart].
    destruct (isWhiteSpace ch) eqn:Hws; cbn [trimEnd]; [cbn; lia|].
    rewrite Hws. cbn. lia. }
  destruct (entriesFrom toStringLarge 1 (Leg.steps leg)) eqn:E.
  - intros [<-|[]]. now left.
  - rewrite <- E. intros Hin. right. exact (H _ _ Hin).
Qed.

Lemma road_name_at_most_one_code_unit_witness :
  {| DirectionStep.step := 1;
     DirectionStep.instruction := "m";
     DirectionStep.distance := "1.2 mi" |}
  = directRoute sampleToStringLarge
      {| Leg.steps := [mainStreet]; Leg.distance := 2000 |}
  \/ String.length "m" <= 1.
Proof.
  apply (road_name_at_most_one_code_unit sampleToStringLarge
           {| Leg.steps := [mainStreet]; Leg.distance := 2000 |}
           {| DirectionStep.step := 1;
              DirectionStep.instruction := "m";
              DirectionStep.distance := "1.2 mi" |}).
  vm_compute. left. reflexivity.
Defined.

(** X4: a lower-cased instruction in which "on", "onto" or "along" is
    followed by white space and then by a code unit that is neither white
    space nor a comma nor a period matches the pattern. *)
Theorem preposition_before_name_matches
        (pre prep ws rest : string) (ch : ascii) :
  In prep prepositions ->
  ws <> EmptyString ->
  allWhiteSpace ws = true ->
  ch <> ","%char ->
  ch <> "."%char ->
  exists m, roadMatch (pre ++ prep ++ ws ++ String ch rest) = Some m.
Proof.
  intros Hprep Hne Hall Hc Hp. unfold roadMatch. apply exec_found.
  unfold roadPattern. rewrite matcher_Seq.
  apply preposition_matches; [exact Hprep|].
  rewrite matcher_Seq. cbn [matcher].
  apply whiteSpace_run_matches; try assumption.
  - pose proof (length_append_le ws (String ch rest)). lia.
  - apply group_matches. now apply inSet_comma_period.
Qed.

Lemma preposition_before_name_matches_witness :
  exists m, roadMatch ("turn right " ++ "onto" ++ " " ++ String "m" "ain street") = Some m.
Proof.
  apply (preposition_before_name_matches "turn right " "onto" " " "ain street" "m").
  - right. left. reflexivity.
  - discriminate.
  - reflexivity.
  - discriminate.
  - discriminate.
Defined.

(** X2: for a positive finite [x = m * 2^e] below 10^21 with a fractional
    part ([e < 0]), [x.toFixed(f)] prints the integer [n] nearest to
    [x * 10^f], the larger one on a tie, with a point before its last [f]
    digits. *)
Theorem toFixed_prints_nearest
        (toStringLarge : float -> string) (x : float)
        (m : positive) (e : Z) (f : nat) :
  Prim2SF x = S754_finite false m e ->
  (1e21 <=? abs x)%float = false ->
  (e < 0)%Z ->
  exists n : Z,
    toFixed toStringLarge x f = fixedDigits n f
    /\ ((2 * n - 1) * 2 ^ (- e) <= 2 * (Z.pos m * 10 ^ Z.of_nat f)
        < (2 * n + 1) * 2 ^ (- e))%Z.
Proof.
  intros Hx Hlarge He. exists (nearestScaled m e f). split.
  - unfold toFixed. now rewrite Hx, Hlarge.
  - exact (proj2 (nearestScaled_nearest m e f) He).
Qed.

Lemma toFixed_prints_nearest_witness :
  exists n : Z,
    toFixed sampleToStringLarge (1609 * 0.000621371)%float 1 = fixedDigits n 1
    /\ ((2 * n - 1) * 2 ^ (- (-53)) <= 2 * (9005271164661323 * 10 ^ Z.of_nat 1)
        < (2 * n + 1) * 2 ^ (- (-53)))%Z.
Proof.
  apply (toFixed_prints_nearest sampleToStringLarge (1609 * 0.000621371)%float
           9005271164661323 (-53) 1).
  - vm_compute. reflexivity.
  - vm_compute. reflexivity.
  - reflexivity.
Defined.

(* ================================================================== *)
(** ** The selection state machine *)
(* ================================================================== *)

Lemma setCurrentStep_same (s : AppState) : setCurrentStep (currentStep s) s = s.
Proof. now destruct s. Qed.

Lemma handleSubmitResume_currentStep toStringLarge outcome s :
  currentStep (fst (handleSubmitResume toStringLarge outcome s)) = currentStep s.
Proof.
  destruct outcome as [|[] [|[[[|route routes]|]]]]; cbn; try reflexivity.
  destruct (MapboxRoute.legs route); cbn; [reflexivity|].
  unfold drawRoute. cbn. now destruct (mapRef s).
Qed.

(** Every reaction but the one to a reset keeps the selection step or moves
    it forward. *)
Lemma react_never_regresses toStringLarge ev s :
  ev <> Reset ->
  stepRank (currentStep s)
  <= stepRank (currentStep (fst (react toStringLarge ev s))).
Proof.
  intros Hev. destruct ev as [coords| | |outcome|outcome|]; cbn [react fst].
  - unfold handleMapClick. destruct (mapRef s); [|lia].
    destruct (currentStep s) eqn:E; cbn; rewrite ?E; cbn; lia.
  - now elim Hev.
  - unfold submitForm, handleSubmitStart.
    destruct (submitDisabled s); [cbn; lia|].
    destruct (submitGuard s) as [[origin destination]|]; cbn; lia.
  - rewrite handleSubmitResume_currentStep. lia.
  - destruct outcome; cbn; lia.
  - unfold mapEffect. destruct (userCoords s); [|cbn; lia].
    destruct (_ && _); cbn; lia.
Qed.

(** C6: with the map in place, a tap in the start step records the tapped
    position as the origin and moves to the end step; a tap in the end step
    records it as the destination and moves to complete; a tap in complete
    changes nothing. A tap thus advances the step by one until complete is
    reached, no reaction other than a reset moves the step back, and a reset
    returns to the start step and clears both positions and both texts. *)
Theorem selection_state_machine
        (toStringLarge : float -> string) (coords : Coords) (s : AppState) :
  mapRef s <> None ->
  let tapped := handleMapClick toStringLarge coords s in
  let reset := resetSelection s in
  (currentStep s = StepStart ->
   currentStep tapped = StepEnd
   /\ startMarkerRef tapped = Some coords
   /\ startLocation tapped = coordsText toStringLarge coords
   /\ endMarkerRef tapped = endMarkerRef s
   /\ endLocation tapped = endLocation s)
  /\ (currentStep s = StepEnd ->
      currentStep tapped = StepComplete
      /\ endMarkerRef tapped = Some coords
      /\ endLocation tapped = coordsText toStringLarge coords
      /\ startMarkerRef tapped = startMarkerRef s
      /\ startLocation tapped = startLocation s)
  /\ (currentStep s = StepComplete -> tapped = s)
  /\ stepRank (currentStep tapped) = Nat.min 2 (S (stepRank (currentStep s)))
  /\ (forall ev, ev <> Reset ->
                 stepRank (currentStep s)
                 <= stepRank (currentStep (fst (react toStringLarge ev s))))
  /\ (currentStep reset = StepStart
      /\ startMarkerRef reset = None
      /\ endMarkerRef reset = None
      /\ startLocation reset = ""
      /\ endLocation reset = "").
Proof.
  intros Hmap tapped reset.
  assert (Htap : tapped
                 = match currentStep s with
                   | StepStart =>
                       setCurrentStep StepEnd
                         (setStartLocation (coordsText toStringLarge coords)
                            (setStartMarkerRef (Some coords) s))
                   | StepEnd =>
                       setCurrentStep StepComplete
                         (setEndLocation (coordsText toStringLarge coords)
                            (setEndMarkerRef (Some coords) s))
                   | StepComplete => s
                   end).
  { unfold tapped, handleMapClick. destruct (mapRef s); [|now elim Hmap].
    destruct (currentStep s) eqn:E; try reflexivity.
    rewrite <- E. apply setCurrentStep_same. }
  split; [|split; [|split; [|split; [|split]]]].
  - intros E. rewrite Htap, E. repeat split.
  - intros E. rewrite Htap, E. repeat split.
  - intros E. now rewrite Htap, E.
  - rewrite Htap. destruct (currentStep s) eqn:E; cbn; rewrite ?E; reflexivity.
  - intros ev. apply react_never_regresses.
  - unfold reset, resetSelection. cbn.
    destruct (mapRef s) as [[[route|]]|]; repeat split.
Qed.

Lemma selection_state_machine_witness :
  let s := mapReady in
  let tapped := handleMapClick sampleToStringLarge london s in
  let reset := resetSelection s in
  (currentStep s = StepStart ->
   currentStep tapped = StepEnd
   /\ startMarkerRef tapped = Some london
   /\ startLocation tapped = coordsText sampleToStringLarge london
   /\ endMarkerRef tapped = endMarkerRef s
   /\ endLocation tapped = endLocation s)
  /\ (currentStep s = StepEnd ->
      currentStep tapped = StepComplete
      /\ endMarkerRef tapped = Some london
      /\ endLocation tapped = coordsText sampleToStringLarge london
      /\ startMarkerRef tapped = startMarkerRef s
      /\ startLocation tapped = startLocation s)
  /\ (currentStep s = StepComplete -> tapped = s)
  /\ stepRank (currentStep tapped) = Nat.min 2 (S (stepRank (currentStep s)))
  /\ (forall ev, ev <> Reset ->
                 stepRank (currentStep s)
                 <= stepRank (currentStep (fst (react sampleToStringLarge ev s))))
  /\ (currentStep reset = StepStart
      /\ startMarkerRef reset = None
      /\ endMarkerRef reset = None
      /\ startLocation reset = ""
      /\ endLocation reset = "").
Proof.
  apply (selection_state_machine sampleToStringLarge london mapReady).
  discriminate.
Defined.

(* ================================================================== *)
(** ** The end of the directions request *)
(* ================================================================== *)

(** C7: when the request fails (no response, or a status that is not a
    success) the handler logs the error, clears the loading flag and shows an
    alert, and does nothing else: the directions and the map with its drawn
    route stay as they were, and no request is issued again. A whole run of
    [handleSubmit] that fails has issued its one request and no other. *)
Theorem failed_request_alerts_and_stops
        (toStringLarge : float -> string) (outcome : FetchOutcome) (s : AppState) :
  requestFailed outcome ->
  let result := handleSubmitResume toStringLarge outcome s in
  snd result = [ConsoleError; Alert "Failed to calculate route. Please try again."]
  /\ fst result = setIsLoading false s
  /\ isLoading (fst result) = false
  /\ directions (fst result) = directions s
  /\ mapRef (fst result) = mapRef s
  /\ existsb isFetch (snd result) = false
  /\ (forall origin destination,
        submitGuard s = Some (origin, destination) ->
        snd (handleSubmit toStringLarge outcome s)
        = [PreventDefault; Fetch origin destination;
           ConsoleError; Alert "Failed to calculate route. Please try again."]
        /\ directions (fst (handleSubmit toStringLarge outcome s)) = directions s
        /\ isLoading (fst (handleSubmit toStringLarge outcome s)) = false).
Proof.
  intros Hfail result.
  assert (Hres : forall s0, handleSubmitResume toStringLarge outcome s0 = catchError s0).
  { intros s0. destruct outcome as [|ok body]; [reflexivity|].
    cbn in Hfail. now rewrite Hfail. }
  unfold result. rewrite Hres. cbn [catchError fst snd].
  do 6 (split; [reflexivity|]).
  intros origin destination Hguard.
  unfold handleSubmit, handleSubmitStart. rewrite Hguard, Hres.
  repeat split.
Qed.

Lemma failed_request_alerts_and_stops_witness :
  let s := setIsLoading true (setDirections (Some []) mapReady) in
  let result := handleSubmitResume sampleToStringLarge (Response false InvalidJson) s in
  snd result = [ConsoleError; Alert "Failed to calculate route. Please try again."]
  /\ fst result = setIsLoading false s
  /\ isLoading (fst result) = false
  /\ directions (fst result) = directions s
  /\ mapRef (fst result) = mapRef s
  /\ existsb isFetch (snd result) = false
  /\ (forall origin destination,
        submitGuard s = Some (origin, destination) ->
        snd (handleSubmit sampleToStringLarge (Response false InvalidJson) s)
        = [PreventDefault; Fetch origin destination;
           ConsoleError; Alert "Failed to calculate route. Please try again."]
        /\ directions (fst (handleSubmit sampleToStringLarge (Response false InvalidJson) s))
           = directions s
        /\ isLoading (fst (handleSubmit sampleToStringLarge (Response false InvalidJson) s))
           = false).
Proof.
  apply (failed_request_alerts_and_stops sampleToStringLarge
           (Response false InvalidJson)
           (setIsLoading true (setDirections (Some []) mapReady))).
  reflexivity.
Defined.

(** C10: when the request succeeds and the body has no routes (the member
    is missing or empty), the handler clears the loading flag and does
    nothing else: no alert and no other effect, and the directions and the
    map with its drawn route stay as they were. *)
Theorem no_routes_clears_loading_only
        (toStringLarge : float -> string)
        (data : MapboxDirectionsResponse.t) (s : AppState) :
  noRoutes data ->
  let result := handleSubmitResume toStringLarge (Response true (Json data)) s in
  snd result = []
  /\ existsb isAlert (snd result) = false
  /\ fst result = setIsLoading false s
  /\ isLoading (fst result) = false
  /\ directions (fst result) = directions s
  /\ mapRef (fst result) = mapRef s.
Proof.
  intros Hno result. unfold result, noRoutes in *.
  cbn [handleSubmitResume]. unfold useResponse.
  destruct (MapboxDirectionsResponse.routes data) as [[|route routes]|];
    [|now elim Hno|]; cbn [fst snd]; repeat split.
Qed.

Lemma no_routes_clears_loading_only_witness :
  let s := setIsLoading true (setDirections (Some []) mapReady) in
  let data := {| MapboxDirectionsResponse.routes := Some [] |} in
  let result := handleSubmitResume sampleToStringLarge (Response true (Json data)) s in
  snd result = []
  /\ existsb isAlert (snd result) = false
  /\ fst result = setIsLoading false s
  /\ isLoading (fst result) = false
  /\ directions (fst result) = directions s
  /\ mapRef (fst result) = mapRef s.
Proof.
  apply (no_routes_clears_loading_only sampleToStringLarge
           {| MapboxDirectionsResponse.routes := Some [] |}
           (setIsLoading true (setDirections (Some []) mapReady))).
  exact I.
Defined.

(** C9: while the loading flag is set the submit button is disabled, and a
    submission of the form issues no request and changes no state. *)
Theorem no_submission_while_loading (s : AppState) :
  isLoading s = true ->
  submitDisabled s = true
  /\ submitForm s = (s, [])
  /\ existsb isFetch (snd (submitForm s)) = false.
Proof.
  intros Hloading. unfold submitForm, submitDisabled. rewrite Hloading.
  repeat split.
Qed.

Lemma no_submission_while_loading_witness :
  let s := setIsLoading true
             (handleMapClick sampleToStringLarge paris
                (handleMapClick sampleToStringLarge london mapReady)) in
  submitDisabled s = true
  /\ submitForm s = (s, [])
  /\ existsb isFetch (snd (submitForm s)) = false.
Proof.
  apply (no_submission_while_loading
           (setIsLoading true
              (handleMapClick sampleToStringLarge paris
                 (handleMapClick sampleToStringLarge london mapReady)))).
  reflexivity.
Defined.

Lemma handleMapClick_isLoading toStringLarge coords s :
  isLoading (handleMapClick toStringLarge coords s) = isLoading s.
Proof.
  unfold handleMapClick. destruct (mapRef s); [|reflexivity].
  now destruct (currentStep s).
Qed.

Lemma resetSelection_isLoading s : isLoading (resetSelection s) = isLoading s.
Proof.
  unfold resetSelection. cbn. now destruct (mapRef s) as [[[route|]]|].
Qed.

Lemma handleSubmitResume_effects toStringLarge outcome s :
  filter isFetch (snd (handleSubmitResume toStringLarge outcome s)) = [].
Proof.
  destruct outcome as [|[] [|data]]; cbn; try reflexivity.
  now destruct (useResponse toStringLarge data s).
Qed.

Lemma handleSubmitResume_isLoading toStringLarge outcome s :
  isLoading (fst (handleSubmitResume toStringLarge outcome s)) = false.
Proof.
  destruct outcome as [|[] [|data]]; cbn; try reflexivity.
  now destruct (useResponse toStringLarge data s).
Qed.

Lemma deliver_oneAtATime toStringLarge ev w w' :
  oneAtATime w -> deliver toStringLarge ev w = Some w' -> oneAtATime w'.
Proof.
  unfold oneAtATime, deliver. intros Hw.
  destruct ev as [coords| | |outcome|outcome|]; cbn [react].
  - intros [= <-]. cbn. now rewrite handleMapClick_isLoading, Nat.add_0_r.
  - intros [= <-]. cbn. now rewrite resetSelection_isLoading, Nat.add_0_r.
  - intros [= <-]. cbn [component inFlight]. unfold submitForm, submitDisabled.
    destruct (isLoading (component w)) eqn:Hloading; cbn [orb fst snd filter List.length].
    + now rewrite Nat.add_0_r, Hloading.
    + destruct Hw as [Hw|[_ Hw]]; [|discriminate]. rewrite Hw.
      destruct (currentStep (component w)); cbn [fst snd filter List.length];
        try (now left).
      unfold handleSubmitStart.
      destruct (submitGuard (component w)) as [[origin destination]|]; cbn;
        [now right|now left].
  - rewrite handleSubmitResume_effects. cbn [List.length].
    destruct (inFlight w) as [|n] eqn:Hn; [discriminate|].
    intros [= <-]. cbn. left. destruct Hw as [Hw|[Hw _]]; lia.
  - intros [= <-]. destruct outcome; cbn; now rewrite Nat.add_0_r.
  - intros [= <-]. cbn [component inFlight]. unfold mapEffect.
    destruct (userCoords (component w)); [|cbn; now rewrite Nat.add_0_r].
    destruct (_ && _); cbn; now rewrite Nat.add_0_r.
Qed.

(** X3: in every run of the component from its mounting, at most one
    directions request is in flight at a time, and the loading flag is set
    while it is. *)
Theorem one_request_in_flight
        (toStringLarge : float -> string) (events : list Event) (w : World) :
  run toStringLarge events mounted = Some w ->
  inFlight w <= 1 /\ (inFlight w = 1 -> isLoading (component w) = true).
Proof.
  assert (H : forall w0, oneAtATime w0 ->
                         run toStringLarge events w0 = Some w -> oneAtATime w).
  { induction events as [|ev events IH]; intros w0 Hw0; cbn [run].
    - now intros [= <-].
    - destruct (deliver toStringLarge ev w0) as [w1|] eqn:E; [|discriminate].
      apply IH. exact (deliver_oneAtATime _ _ _ _ Hw0 E). }
  intros Hrun. specialize (H mounted (or_introl eq_refl) Hrun).
  destruct H as [H0|[H1 H2]].
  - rewrite H0. split; [lia|discriminate].
  - rewrite H1. split; [lia|]. intros _. exact H2.
Qed.

Lemma one_request_in_flight_witness :
  inFlight requesting <= 1
  /\ (inFlight requesting = 1 -> isLoading (component requesting) = true).
Proof.
  apply (one_request_in_flight sampleToStringLarge
           [Geolocation (PositionFound london); MapEffect;
            Tap london; Tap paris; SubmitForm; SubmitForm]).
  vm_compute. reflexivity.
Defined.

(** The handler itself does not read the loading flag: the gate is the
    button's. *)
Lemma handleSubmitStart_ignores_loading (s : AppState) (loading : bool) :
  submitGuard (setIsLoading loading s) = submitGuard s.
Proof. reflexivity. Qed.

(* ================================================================== *)
(** ** Start-up without a position *)
(* ================================================================== *)

(** C8: after the position request has failed, or without geolocation
    support, the map effect creates no map: the first leaves the empty map
    container, the second the spinner, and a tap changes nothing in either
    state. Only console messages report the failure. *)
Theorem no_position_no_map (toStringLarge : float -> string) (coords : Coords) :
  let denied := fst (mapEffect (fst (geolocationEffect PositionError initialState))) in
  let unsupported :=
    fst (mapEffect (fst (geolocationEffect GeolocationUnsupported initialState))) in
  existsb isAlert (snd (geolocationEffect PositionError initialState)) = false
  /\ existsb isAlert (snd (geolocationEffect GeolocationUnsupported initialState)) = false
  /\ loadingLocation denied = false
  /\ mapRef denied = None
  /\ handleMapClick toStringLarge coords denied = denied
  /\ loadingLocation unsupported = true
  /\ mapRef unsupported = None
  /\ handleMapClick toStringLarge coords unsupported = unsupported.
Proof.
  repeat split.
Qed.

(** With a position the same start-up creates the map, and taps select. *)
Lemma position_found_map_created (position : Coords) :
  mapRef (fst (mapEffect (fst (geolocationEffect (PositionFound position) initialState))))
  = Some {| routeSource := None |}.
Proof. reflexivity. Qed.

(* ================================================================== *)
(** ** The press-and-hold gesture *)
(* ================================================================== *)

Lemma cleanup_cleared (p : MapPage) :
  pressCoherent p ->
  cleanup p
  = {| pressTimer := None; feedbackMarker := None; clock := clock p;
       nextTimer := nextTimer p; timers := []; appState := appState p |}.
Proof.
  destruct p as [timer marker time next pending s].
  unfold pressCoherent, cleanup. cbn.
  destruct timer as [id|].
  - intros (_ & (Hid & _) & t & -> & ->).
    destruct id as [|id]; [lia|].
    cbn. unfold clearTimeout. cbn. now rewrite Nat.eqb_refl.
  - now intros (_ & -> & ->).
Qed.

Lemma cleanup_appState (p : MapPage) : appState (cleanup p) = appState p.
Proof.
  unfold cleanup. destruct (pressTimer p) as [[|id]|]; cbn;
    now destruct (feedbackMarker p).
Qed.

Lemma pressStart_pending (lngLat : Coords) (p : MapPage) :
  pressCoherent p ->
  pressStart lngLat p
  = {| pressTimer := Some (nextTimer p); feedbackMarker := Some lngLat;
       clock := clock p; nextTimer := S (nextTimer p);
       timers := [(nextTimer p, {| due := clock p + 500; target := lngLat |})];
       appState := appState p |}.
Proof.
  intros H. unfold pressStart. now rewrite (cleanup_cleared p H).
Qed.

Lemma pageStep_coherent toStringLarge ev p q :
  pressCoherent p -> pageStep toStringLarge ev p = Some q -> pressCoherent q.
Proof.
  intros Hp. pose proof Hp as (Hnext & Hpress).
  assert (Hdown : forall lngLat, pressCoherent (pressStart lngLat p)).
  { intros lngLat. rewrite (pressStart_pending _ _ Hp). split; cbn; [lia|].
    split; [lia|]. now eexists. }
  assert (Hup : pressCoherent (cleanup p)).
  { rewrite (cleanup_cleared _ Hp). split; cbn; [lia|now split]. }
  destruct ev as [c| | |c| | |ms|id]; cbn [pageStep].
  - intros [= <-]. apply Hdown.
  - intros [= <-]. exact Hup.
  - intros [= <-]. exact Hup.
  - intros [= <-]. apply Hdown.
  - intros [= <-]. exact Hup.
  - intros [= <-]. exact Hup.
  - intros [= <-]. exact Hp.
  - destruct (findTimer id (timers p)) as [t|] eqn:Hfind; [|discriminate].
    destruct (due t <=? clock p)%nat; [|discriminate].
    intros [= <-]. unfold timerCallback.
    destruct p as [timer marker time next pending s]. cbn in *.
    destruct timer as [id0|].
    + destruct Hpress as (Hid0 & t0 & -> & ->).
      cbn in Hfind. destruct (id0 =? id)%nat eqn:E; [|discriminate].
      apply Nat.eqb_eq in E. subst id0.
      destruct id as [|id]; [lia|].
      unfold cleanup, clearTimeout. cbn. rewrite Nat.eqb_refl. cbn.
      split; cbn; [lia|now split].
    + destruct Hpress as (-> & _). discriminate.
Qed.

Lemma newPage_coherent (s : AppState) : pressCoherent (newPage s).
Proof. split; cbn; [lia|now split]. Qed.

Lemma runPage_coherent toStringLarge events : forall p q,
  pressCoherent p -> runPage toStringLarge events p = Some q -> pressCoherent q.
Proof.
  induction events as [|ev events IH]; intros p q Hp; cbn [runPage].
  - now intros [= <-].
  - destruct (pageStep toStringLarge ev p) as [p'|] eqn:E; [|discriminate].
    apply IH. exact (pageStep_coherent _ _ _ _ Hp E).
Qed.

Lemma runPage_app toStringLarge events1 events2 p :
  runPage toStringLarge (events1 ++ events2) p
  = match runPage toStringLarge events1 p with
    | Some q => runPage toStringLarge events2 q
    | None => None
    end.
Proof.
  revert p. induction events1 as [|ev events1 IH]; intros p; cbn [runPage app];
    [reflexivity|].
  destruct (pageStep toStringLarge ev p); [apply IH|reflexivity].
Qed.

Lemma runPage_elapse toStringLarge ds : forall p,
  runPage toStringLarge (map Elapse ds) p
  = Some {| pressTimer := pressTimer p; feedbackMarker := feedbackMarker p;
            clock := clock p + list_sum ds; nextTimer := nextTimer p;
            timers := timers p; appState := appState p |}.
Proof.
  induction ds as [|d ds IH]; intros p; cbn [map runPage pageStep list_sum].
  - destruct p. cbn. now rewrite Nat.add_0_r.
  - rewrite IH. cbn. now rewrite Nat.add_assoc.
Qed.

(** X5: in every run of the page from the creation of the map, at most one
    timeout is pending, and it is the one [pressTimer] holds; the feedback
    marker is shown exactly while a press is pending, at the pressed
    position. *)
Theorem one_press_pending
        (toStringLarge : float -> string) (s : AppState)
        (events : list PageEvent) (p : MapPage) :
  runPage toStringLarge events (newPage s) = Some p ->
  List.length (timers p) <= 1
  /\ (forall id t, In (id, t) (timers p) ->
                   pressTimer p = Some id /\ feedbackMarker p = Some (target t))
  /\ (pressTimer p = None <-> feedbackMarker p = None)
  /\ (pressTimer p = None -> timers p = []).
Proof.
  intros Hrun.
  pose proof (runPage_coherent _ _ _ _ (newPage_coherent s) Hrun) as (_ & H).
  destruct (pressTimer p) as [id|].
  - destruct H as (_ & t & -> & ->). cbn. repeat split; try lia; try discriminate.
    + destruct H as [[= <- <-]|[]]. reflexivity.
    + destruct H as [[= <- <-]|[]]. reflexivity.
  - destruct H as (-> & ->). cbn. repeat split; try lia; try easy.
Qed.

Lemma one_press_pending_witness :
  List.length (timers pressedPage) <= 1
  /\ (forall id t, In (id, t) (timers pressedPage) ->
                   pressTimer pressedPage = Some id
                   /\ feedbackMarker pressedPage = Some (target t))
  /\ (pressTimer pressedPage = None <-> feedbackMarker pressedPage = None)
  /\ (pressTimer pressedPage = None -> timers pressedPage = []).
Proof.
  apply (one_press_pending sampleToStringLarge mapReady
           [MouseDown london; Elapse 100; MouseUp; TouchStart paris]).
  reflexivity.
Defined.

(** X6: a press (mouse or touch) followed only by the passing of time
    becomes a tap exactly when its own timeout runs, which it can once 500 ms
    have passed: the component then gets [handleMapClick] at the pressed
    position, and nothing of the press is left. Any other timeout, or this
    one before 500 ms, cannot run. *)
Theorem hold_taps_after_dwell
        (toStringLarge : float -> string) (press : Coords -> PageEvent)
        (lngLat : Coords) (ds : list nat) (id : nat) (p : MapPage) :
  pressCoherent p ->
  press = MouseDown \/ press = TouchStart ->
  runPage toStringLarge (press lngLat :: map Elapse ds ++ [TimerFires id]) p
  = if (id =? nextTimer p)%nat && (500 <=? list_sum ds)%nat
    then Some {| pressTimer := None; feedbackMarker := None;
                 clock := clock p + list_sum ds; nextTimer := S (nextTimer p);
                 timers := [];
                 appState := handleMapClick toStringLarge lngLat (appState p) |}
    else None.
Proof.
  intros Hp Hpress.
  assert (Hstep : pageStep toStringLarge (press lngLat) p = Some (pressStart lngLat p))
    by (destruct Hpress as [-> | ->]; reflexivity).
  assert (Hdue : (clock p + 500 <=? clock p + list_sum ds)%nat
                 = (500 <=? list_sum ds)%nat).
  { destruct (500 <=? list_sum ds)%nat eqn:H.
    - apply Nat.leb_le in H. apply Nat.leb_le. lia.
    - apply Nat.leb_gt in H. apply Nat.leb_gt. lia. }
  cbn [runPage]. rewrite Hstep, (pressStart_pending _ _ Hp).
  rewrite runPage_app, runPage_elapse.
  cbn [runPage pageStep findTimer timers clock due pressTimer feedbackMarker
       nextTimer appState].
  rewrite (Nat.eqb_sym id).
  destruct (nextTimer p =? id)%nat eqn:E; cbn [andb]; [|reflexivity].
  apply Nat.eqb_eq in E. subst id.
  cbn [due]. rewrite Hdue.
  destruct (500 <=? list_sum ds)%nat; [|reflexivity].
  destruct Hp as (Hnext & _).
  unfold timerCallback, cleanup, clearTimeout.
  cbn [timers clock pressTimer feedbackMarker nextTimer appState target filter fst].
  rewrite Nat.eqb_refl. cbn [negb].
  destruct (nextTimer p) as [|n]; [lia|].
  cbn [filter]. reflexivity.
Qed.

Lemma hold_taps_after_dwell_witness :
  runPage sampleToStringLarge
    (TouchStart london :: map Elapse [200; 300] ++ [TimerFires 3]) pressedPage
  = if (3 =? nextTimer pressedPage)%nat && (500 <=? list_sum [200; 300])%nat
    then Some {| pressTimer := None; feedbackMarker := None;
                 clock := clock pressedPage + list_sum [200; 300];
                 nextTimer := S (nextTimer pressedPage);
                 timers := [];
                 appState := handleMapClick sampleToStringLarge london
                               (appState pressedPage) |}
    else None.
Proof.
  apply (hold_taps_after_dwell sampleToStringLarge TouchStart london [200; 300] 3
           pressedPage).
  - split; cbn; [lia|]. split; [lia|]. now eexists.
  - right. reflexivity.
Defined.

(** X7: after a release, a drag start or a touch move, the press that was
    pending never becomes a tap, however long one waits: no timeout can run
    until the next press. The cancelling event itself leaves the component
    as it is and takes the marker and the timer away. *)
Theorem released_press_never_taps
        (toStringLarge : float -> string) (s : AppState)
        (events : list PageEvent) (cancel : PageEvent)
        (ds : list nat) (id : nat) :
  isCancel cancel = true ->
  runPage toStringLarge (events ++ cancel :: map Elapse ds ++ [TimerFires id])
    (newPage s) = None
  /\ (forall p, runPage toStringLarge events (newPage s) = Some p ->
                exists q, pageStep toStringLarge cancel p = Some q
                          /\ appState q = appState p
                          /\ pressTimer q = None
                          /\ feedbackMarker q = None
                          /\ timers q = []).
Proof.
  intros Hcancel.
  assert (Hstep : forall p, pageStep toStringLarge cancel p = Some (cleanup p))
    by (intros p; destruct cancel; try discriminate; reflexivity).
  split.
  - rewrite runPage_app.
    destruct (runPage toStringLarge events (newPage s)) as [p|] eqn:Hrun;
      [|reflexivity].
    pose proof (runPage_coherent _ _ _ _ (newPage_coherent s) Hrun) as Hp.
    cbn [runPage]. rewrite Hstep, (cleanup_cleared _ Hp).
    rewrite runPage_app, runPage_elapse. reflexivity.
  - intros p Hrun.
    pose proof (runPage_coherent _ _ _ _ (newPage_coherent s) Hrun) as Hp.
    exists (cleanup p). rewrite Hstep, (cleanup_cleared _ Hp). repeat split.
Qed.

Lemma released_press_never_taps_witness :
  runPage sampleToStringLarge
    ([MouseDown london; Elapse 499] ++ MouseUp :: map Elapse [1; 1000] ++ [TimerFires 1])
    (newPage mapReady) = None
  /\ (forall p, runPage sampleToStringLarge [MouseDown london; Elapse 499]
                  (newPage mapReady) = Some p ->
                exists q, pageStep sampleToStringLarge MouseUp p = Some q
                          /\ appState q = appState p
                          /\ pressTimer q = None
                          /\ feedbackMarker q = None
                          /\ timers q = []).
Proof.
  apply (released_press_never_taps sampleToStringLarge mapReady
           [MouseDown london; Elapse 499] MouseUp [1; 1000] 1).
  reflexivity.
Defined.

(** X8: in every run of the page, an event changes the component only if
    it is the timeout of the pending press running when due, and then the
    change is [handleMapClick] at the position of the feedback marker. *)
Theorem only_a_held_press_changes_the_component
        (toStringLarge : float -> string) (s : AppState)
        (events : list PageEvent) (ev : PageEvent) (p q : MapPage) :
  runPage toStringLarge events (newPage s) = Some p ->
  pageStep toStringLarge ev p = Some q ->
  appState q = appState p
  \/ exists id t,
       ev = TimerFires id
       /\ pressTimer p = Some id
       /\ feedbackMarker p = Some (target t)
       /\ due t <= clock p
       /\ appState q = handleMapClick toStringLarge (target t) (appState p).
Proof.
  intros Hrun Hstep.
  pose proof (runPage_coherent _ _ _ _ (newPage_coherent s) Hrun) as (_ & Hp).
  destruct ev as [c| | |c| | |ms|id]; cbn [pageStep] in Hstep;
    try (injection Hstep as <-; left;
         first [apply cleanup_appState | reflexivity
               | unfold pressStart; cbn; apply cleanup_appState]).
  destruct (findTimer id (timers p)) as [t|] eqn:Hfind; [|discriminate].
  destruct (due t <=? clock p)%nat eqn:Hdue; [|discriminate].
  injection Hstep as <-. right. exists id, t.
  destruct (pressTimer p) as [id0|].
  - destruct Hp as (_ & t0 & Htimers & Hmarker).
    rewrite Htimers in Hfind. cbn in Hfind.
    destruct (id0 =? id)%nat eqn:E; [|discriminate].
    apply Nat.eqb_eq in E. injection Hfind as <-. subst id0.
    repeat split; try assumption.
    + now apply Nat.leb_le.
    + unfold timerCallback. now rewrite cleanup_appState.
  - destruct Hp as (Htimers & _). rewrite Htimers in Hfind. discriminate.
Qed.

Lemma only_a_held_press_changes_the_component_witness :
  appState (cleanup pressedPage) = appState pressedPage
  \/ exists id t,
       TouchMove = TimerFires id
       /\ pressTimer pressedPage = Some id
       /\ feedbackMarker pressedPage = Some (target t)
       /\ due t <= clock pressedPage
       /\ appState (cleanup pressedPage)
          = handleMapClick sampleToStringLarge (target t) (appState pressedPage).
Proof.
  apply (only_a_held_press_changes_the_component sampleToStringLarge mapReady
           [MouseDown london; Elapse 100; MouseUp; TouchStart paris]
           TouchMove pressedPage (cleanup pressedPage)).
  - reflexivity.
  - reflexivity.
Defined.

(* ================================================================== *)
(** ** What holds of the component in every run *)
(* ================================================================== *)

Lemma coherent_mounted toStringLarge : coherent toStringLarge mounted.
Proof.
  split; [|split]; cbn; [now repeat split|reflexivity|].
  intros [H|H]; [now elim H|lia].
Qed.

Lemma handleMapClick_coherent toStringLarge coords s n :
  coherent toStringLarge {| component := s; inFlight := n |} ->
  coherent toStringLarge
    {| component := handleMapClick toStringLarge coords s; inFlight := n |}.
Proof.
  unfold coherent, selectionConsistent, routeDrawn, hasDirections, handleMapClick.
  cbn [component inFlight].
  destruct s as [sl el dirs uc ld ll cs [map|] sm em]; cbn; [|easy].
  intros (Hsel & Hroute & Hmap).
  destruct cs; cbn.
  - destruct Hsel as (-> & -> & -> & ->).
    split; [now exists coords|]. split; [exact Hroute|discriminate].
  - destruct Hsel as (origin & -> & -> & -> & ->).
    split; [now exists origin, coords|]. split; [exact Hroute|discriminate].
  - split; [exact Hsel|]. split; [exact Hroute|discriminate].
Qed.

Lemma resetSelection_coherent toStringLarge s n :
  coherent toStringLarge {| component := s; inFlight := n |} ->
  coherent toStringLarge {| component := resetSelection s; inFlight := n |}.
Proof.
  unfold coherent, selectionConsistent, routeDrawn, hasDirections, resetSelection.
  cbn [component inFlight].
  destruct s as [sl el dirs uc ld ll cs [[[route|]]|] sm em]; cbn;
    intros (_ & _ & Hmap); (split; [now repeat split|]); (split; [reflexivity|]);
    try discriminate.
  intros [H|H]; [now elim H|]. apply Hmap. now right.
Qed.

Lemma submitForm_coherent toStringLarge s n :
  coherent toStringLarge {| component := s; inFlight := n |} ->
  coherent toStringLarge
    {| component := fst (submitForm s);
       inFlight := n + List.length (filter isFetch (snd (submitForm s))) |}.
Proof.
  unfold submitForm, submitDisabled, handleSubmitStart.
  destruct (isLoading s) eqn:Hloading; cbn [orb fst snd filter List.length];
    [now rewrite Nat.add_0_r|].
  destruct (currentStep s) eqn:Hstep; cbn [fst snd filter List.length];
    try (now rewrite Nat.add_0_r).
  destruct (submitGuard s) as [[origin destination]|];
    cbn [fst snd filter List.length isFetch]; [|now rewrite Nat.add_0_r].
  unfold coherent, selectionConsistent, routeDrawn, hasDirections.
  cbn [component inFlight].
  destruct s as [sl el dirs uc ld ll cs map sm em]. cbn in *. subst cs.
  intros (Hsel & Hroute & Hmap). split; [exact Hsel|]. split; [exact Hroute|].
  intros _. apply Hmap. left. discriminate.
Qed.

Lemma handleSubmitResume_coherent toStringLarge outcome s n :
  coherent toStringLarge {| component := s; inFlight := S n |} ->
  coherent toStringLarge
    {| component := fst (handleSubmitResume toStringLarge outcome s);
       inFlight := n |}.
Proof.
  intros (Hsel & Hroute & Hmap). cbn [component inFlight] in *.
  assert (Hcatch : coherent toStringLarge
                     {| component := setIsLoading false s; inFlight := n |}).
  { split; [|split]; cbn [component inFlight].
    - destruct s; exact Hsel.
    - destruct s; exact Hroute.
    - intros _. destruct s. apply Hmap. right. lia. }
  destruct outcome as [|[] [|data]]; cbn [handleSubmitResume catchError fst];
    try exact Hcatch.
  unfold useResponse.
  destruct (MapboxDirectionsResponse.routes data) as [[|route routes]|];
    cbn [fst]; try exact Hcatch.
  destruct (MapboxRoute.legs route) as [|leg legs]; cbn [fst]; [exact Hcatch|].
  assert (Hsome : mapRef s <> None) by (apply Hmap; right; lia).
  split; [|split]; cbn [component inFlight].
  - destruct s as [sl el dirs uc ld ll cs [map|] sm em]; [exact Hsel|now elim Hsome].
  - destruct s as [sl el dirs uc ld ll cs [map|] sm em]; [reflexivity|now elim Hsome].
  - intros _. now destruct s as [sl el dirs uc ld ll cs [map|] sm em].
Qed.

Lemma geolocationEffect_coherent toStringLarge outcome s n :
  coherent toStringLarge {| component := s; inFlight := n |} ->
  coherent toStringLarge
    {| component := fst (geolocationEffect outcome s); inFlight := n |}.
Proof.
  intros H. destruct outcome; destruct s; exact H.
Qed.

Lemma mapEffect_coherent toStringLarge s n :
  coherent toStringLarge {| component := s; inFlight := n |} ->
  coherent toStringLarge {| component := fst (mapEffect s); inFlight := n |}.
Proof.
  intros H. unfold mapEffect.
  destruct (userCoords s) eqn:Hcoords; [|exact H].
  destruct (mapRef s) as [map|] eqn:Hmap;
    [rewrite andb_false_r; exact H|].
  destruct (mapContainerRef s && true && negb (loadingLocation s)); [|exact H].
  destruct H as (Hsel & Hroute & _). cbn [component inFlight fst] in *.
  destruct s as [sl el dirs uc ld ll cs map sm em]. cbn in *. subst map.
  split; [exact Hsel|]. split; [exact Hroute|discriminate].
Qed.

Lemma deliver_coherent toStringLarge ev w w' :
  coherent toStringLarge w -> deliver toStringLarge ev w = Some w' ->
  coherent toStringLarge w'.
Proof.
  destruct w as [s n]. intros Hw. unfold deliver. cbn [component inFlight].
  destruct ev as [coords| | |outcome|outcome|]; cbn [react].
  - intros [= <-]. cbn [fst snd filter List.length]. rewrite Nat.add_0_r.
    now apply handleMapClick_coherent.
  - intros [= <-]. cbn [fst snd filter List.length]. rewrite Nat.add_0_r.
    now apply resetSelection_coherent.
  - intros [= <-]. now apply submitForm_coherent.
  - rewrite handleSubmitResume_effects. destruct n as [|n]; [discriminate|].
    intros [= <-]. cbn [List.length]. rewrite Nat.add_0_r.
    now apply handleSubmitResume_coherent.
  - intros [= <-].
    replace (List.length (filter isFetch (snd (geolocationEffect outcome s)))) with 0
      by now destruct outcome.
    rewrite Nat.add_0_r. now apply geolocationEffect_coherent.
  - intros [= <-].
    replace (List.length (filter isFetch (snd (mapEffect s)))) with 0.
    + rewrite Nat.add_0_r. now apply mapEffect_coherent.
    + unfold mapEffect. destruct (userCoords s); [|reflexivity].
      now destruct (_ && _).
Qed.

Lemma run_coherent toStringLarge events : forall w w',
  coherent toStringLarge w -> run toStringLarge events w = Some w' ->
  coherent toStringLarge w'.
Proof.
  induction events as [|ev events IH]; intros w w' Hw; cbn [run].
  - now intros [= <-].
  - destruct (deliver toStringLarge ev w) as [w1|] eqn:E; [|discriminate].
    apply IH. exact (deliver_coherent _ _ _ _ Hw E).
Qed.

Lemma coordsText_nonempty toStringLarge coords :
  (coordsText toStringLarge coords =? "")%string = false.
Proof.
  unfold coordsText.
  destruct (toFixed toStringLarge (lat coords) 6); reflexivity.
Qed.

(** X9: in every run of the component from its mounting, the selection
    step agrees with what is recorded: in the start step no marker and no
    text, in the end step the origin's marker and text only, in the complete
    step both, each text being the one printed from its marker's position. *)
Theorem selection_always_consistent
        (toStringLarge : float -> string) (events : list Event) (w : World) :
  run toStringLarge events mounted = Some w ->
  selectionConsistent toStringLarge (component w).
Proof.
  intros Hrun.
  exact (proj1 (run_coherent _ _ _ _ (coherent_mounted toStringLarge) Hrun)).
Qed.

Lemma selection_always_consistent_witness :
  selectionConsistent sampleToStringLarge (component requesting).
Proof.
  apply (selection_always_consistent sampleToStringLarge
           [Geolocation (PositionFound london); MapEffect;
            Tap london; Tap paris; SubmitForm]).
  vm_compute. reflexivity.
Defined.

(** X10: in every run, whenever the submit button is enabled, both markers
    exist and a submission passes the guard of [handleSubmit]: it sets the
    loading flag and issues one request, from the origin's marker to the
    destination's. *)
Theorem enabled_submit_sends_request
        (toStringLarge : float -> string) (events : list Event) (w : World) :
  run toStringLarge events mounted = Some w ->
  submitDisabled (component w) = false ->
  exists origin destination,
    startMarkerRef (component w) = Some origin
    /\ endMarkerRef (component w) = Some destination
    /\ submitForm (component w)
       = (setIsLoading true (component w),
          [PreventDefault; Fetch origin destination]).
Proof.
  intros Hrun Henabled.
  pose proof (proj1 (run_coherent _ _ _ _ (coherent_mounted toStringLarge) Hrun))
    as Hsel.
  unfold submitForm. rewrite Henabled.
  unfold submitDisabled in Henabled. apply orb_false_elim in Henabled.
  destruct Henabled as (_ & Hstep).
  unfold selectionConsistent in Hsel.
  destruct (currentStep (component w)); try discriminate.
  destruct Hsel as (origin & destination & Hsm & Hsl & Hem & Hel).
  exists origin, destination. split; [exact Hsm|]. split; [exact Hem|].
  unfold handleSubmitStart, submitGuard.
  now rewrite Hsm, Hem, Hsl, Hel, !coordsText_nonempty.
Qed.

Lemma enabled_submit_sends_request_witness :
  exists origin destination,
    startMarkerRef (component selected) = Some origin
    /\ endMarkerRef (component selected) = Some destination
    /\ submitForm (component selected)
       = (setIsLoading true (component selected),
          [PreventDefault; Fetch origin destination]).
Proof.
  apply (enabled_submit_sends_request sampleToStringLarge
           [Geolocation (PositionFound london); MapEffect; Tap london; Tap paris]).
  - vm_compute. reflexivity.
  - reflexivity.
Defined.



(** X12: in every run, each of the two deep links opens a window exactly
    in the complete step: one window, in a new tab; in the other steps the
    guard on the markers makes the click do nothing. *)
Theorem deep_links_open_when_complete
        (toStringLarge numberToString : float -> string)
        (events : list Event) (w : World) :
  run toStringLarge events mounted = Some w ->
  (currentStep (component w) = StepComplete ->
   exists google apple,
     openInGoogleMaps numberToString (component w) = [WindowOpen google "_blank"]
     /\ openInAppleMaps numberToString (component w) = [WindowOpen apple "_blank"])
  /\ (currentStep (component w) <> StepComplete ->
      openInGoogleMaps numberToString (component w) = []
      /\ openInAppleMaps numberToString (component w) = []).
Proof.
  intros Hrun.
  pose proof (proj1 (run_coherent _ _ _ _ (coherent_mounted toStringLarge) Hrun))
    as Hsel.
  unfold selectionConsistent in Hsel.
  unfold openInGoogleMaps, openInAppleMaps.
  destruct (currentStep (component w)).
  - destruct Hsel as (Hsm & _). rewrite Hsm. split; [discriminate|now split].
  - destruct Hsel as (origin & Hsm & _ & Hem & _). rewrite Hsm, Hem.
    split; [discriminate|now split].
  - destruct Hsel as (origin & destination & Hsm & _ & Hem & _). rewrite Hsm, Hem.
    split; [|intros H; now elim H]. intros _. now eexists _, _.
Qed.

Lemma deep_links_open_when_complete_witness :
  (currentStep (component selected) = StepComplete ->
   exists google apple,
     openInGoogleMaps sampleNumberToString (component selected)
     = [WindowOpen google "_blank"]
     /\ openInAppleMaps sampleNumberToString (component selected)
        = [WindowOpen apple "_blank"])
  /\ (currentStep (component selected) <> StepComplete ->
      openInGoogleMaps sampleNumberToString (component selected) = []
      /\ openInAppleMaps sampleNumberToString (component selected) = []).
Proof.
  apply (deep_links_open_when_complete sampleToStringLarge sampleNumberToString
           [Geolocation (PositionFound london); MapEffect; Tap london; Tap paris]).
  vm_compute. reflexivity.
Defined.

(* ================================================================== *)
(** ** The simplified steps as a list *)
(* ================================================================== *)

Lemma entriesFrom_filter toStringLarge steps : forall k,
  entriesFrom toStringLarge k steps
  = map (fun numbered => entryOf toStringLarge (fst numbered) (snd numbered))
        (combine (seq k (List.length (filter included steps)))
                 (filter included steps)).
Proof.
  induction steps as [|step steps IH]; intros k; cbn [entriesFrom filter];
    [reflexivity|].
  destruct (included step); [|apply IH].
  cbn [List.length seq combine map fst snd]. now rewrite IH.
Qed.

(** X13: the loop over the steps computes the included steps in their
    original order, numbered from 1 in that order, each with its road name
    and its distance in miles; the synthetic entry stands in when no step is
    included. *)
Theorem simplified_steps_are_the_included_steps
        (toStringLarge : float -> string) (leg : Leg.t) :
  simplifySteps toStringLarge leg
  = match filter included (Leg.steps leg) with
    | [] => [directRoute toStringLarge leg]
    | kept =>
        map (fun numbered => entryOf toStringLarge (fst numbered) (snd numbered))
            (combine (seq 1 (List.length kept)) kept)
    end.
Proof.
  rewrite simplifySteps_entries, entriesFrom_filter.
  now destruct (filter included (Leg.steps leg)).
Qed.

(** X14: the simplified steps are never empty; there are as many as
    included steps, or one; their ordinals are 1, 2, ... in order, so that no
    two entries share the ordinal the list is keyed by. *)
Theorem simplified_steps_numbered
        (toStringLarge : float -> string) (leg : Leg.t) :
  let output := simplifySteps toStringLarge leg in
  List.length output = Nat.max 1 (List.length (filter included (Leg.steps leg)))
  /\ map DirectionStep.step output = seq 1 (List.length output)
  /\ NoDup (map DirectionStep.step output).
Proof.
  intros output.
  assert (Hlen : List.length output
                 = Nat.max 1 (List.length (filter included (Leg.steps leg)))).
  { unfold output. rewrite simplifySteps_entries, entriesFrom_filter.
    destruct (filter included (Leg.steps leg)) as [|step kept] eqn:E; [reflexivity|].
    cbn [List.length seq combine map].
    rewrite length_map, length_combine, length_seq. cbn [List.length]. lia. }
  assert (Hseq : map DirectionStep.step output = seq 1 (List.length output)).
  { apply nth_error_ext. intros j.
    rewrite nth_error_map.
    destruct (nth_error output j) as [entry|] eqn:E; cbn [option_map].
    - rewrite (simplifySteps_ordinal _ _ _ _ E).
      assert (Hj : j < List.length output) by (apply nth_error_Some; congruence).
      symmetry. rewrite nth_error_seq.
      apply Nat.ltb_lt in Hj. now rewrite Hj.
    - apply nth_error_None in E. symmetry. apply nth_error_None.
      now rewrite length_seq. }
  split; [exact Hlen|]. split; [exact Hseq|].
  rewrite Hseq. apply seq_NoDup.
Qed.

(* ================================================================== *)
(** ** The completion of a request, and submissions *)
(* ================================================================== *)

Lemma handleSubmitResume_frame toStringLarge outcome s :
  let done := fst (handleSubmitResume toStringLarge outcome s) in
  currentStep done = currentStep s
  /\ startMarkerRef done = startMarkerRef s
  /\ endMarkerRef done = endMarkerRef s
  /\ startLocation done = startLocation s
  /\ endLocation done = endLocation s
  /\ userCoords done = userCoords s
  /\ loadingLocation done = loadingLocation s
  /\ (mapRef done = None <-> mapRef s = None).
Proof.
  destruct outcome as [|[] [|data]]; cbn [handleSubmitResume catchError fst];
    try (now repeat split).
  unfold useResponse.
  destruct (MapboxDirectionsResponse.routes data) as [[|route routes]|];
    try (now repeat split).
  destruct (MapboxRoute.legs route) as [|leg legs]; [now repeat split|].
  unfold drawRoute. cbn [mapRef setDirections].
  destruct s as [sl el dirs uc ld ll cs [map|] sm em]; cbn; now repeat split.
Qed.


(** X16: a reset does not cancel a request in flight. Its response, when
    it brings a route with a leg, still replaces the directions by the
    simplified steps of that leg, although the selection is back at the
    start step with no marker; the loading flag, which the reset leaves set,
    is cleared by the response. *)
Theorem response_after_reset_is_shown
        (toStringLarge : float -> string)
        (data : MapboxDirectionsResponse.t)
        (route : MapboxRoute.t) (routes : list MapboxRoute.t)
        (leg : Leg.t) (legs : list Leg.t) (s : AppState) :
  MapboxDirectionsResponse.routes data = Some (route :: routes) ->
  MapboxRoute.legs route = leg :: legs ->
  let reset := resetSelection s in
  let shown := fst (handleSubmitResume toStringLarge (Response true (Json data)) reset) in
  isLoading reset = isLoading s
  /\ directions reset = None
  /\ directions shown = Some (simplifySteps toStringLarge leg)
  /\ isLoading shown = false
  /\ currentStep shown = StepStart
  /\ startMarkerRef shown = None
  /\ endMarkerRef shown = None
  /\ (mapRef s <> None ->
      mapRef shown = Some {| routeSource := Some (MapboxRoute.coordinates route) |}).
Proof.
  intros Hroutes Hlegs reset shown. unfold shown, reset.
  cbn [handleSubmitResume]. unfold useResponse. rewrite Hroutes, Hlegs.
  unfold drawRoute, resetSelection.
  destruct s as [sl el dirs uc ld ll cs [[[drawn|]]|] sm em]; cbn;
    repeat split; congruence.
Qed.

Lemma response_after_reset_is_shown_witness :
  let data :=
    {| MapboxDirectionsResponse.routes :=
         Some [{| MapboxRoute.legs :=
                    [{| Leg.steps := [mainStreet]; Leg.distance := 2000 |}];
                  MapboxRoute.coordinates := [] |}] |} in
  let reset := resetSelection (component requesting) in
  let shown :=
    fst (handleSubmitResume sampleToStringLarge (Response true (Json data)) reset) in
  isLoading reset = isLoading (component requesting)
  /\ directions reset = None
  /\ directions shown
     = Some (simplifySteps sampleToStringLarge
               {| Leg.steps := [mainStreet]; Leg.distance := 2000 |})
  /\ isLoading shown = false
  /\ currentStep shown = StepStart
  /\ startMarkerRef shown = None
  /\ endMarkerRef shown = None
  /\ (mapRef (component requesting) <> None ->
      mapRef shown = Some {| routeSource := Some [] |}).
Proof.
  apply (response_after_reset_is_shown sampleToStringLarge
           {| MapboxDirectionsResponse.routes :=
                Some [{| MapboxRoute.legs :=
                           [{| Leg.steps := [mainStreet]; Leg.distance := 2000 |}];
                         MapboxRoute.coordinates := [] |}] |}
           {| MapboxRoute.legs :=
                [{| Leg.steps := [mainStreet]; Leg.distance := 2000 |}];
              MapboxRoute.coordinates := [] |}
           []
           {| Leg.steps := [mainStreet]; Leg.distance := 2000 |}
           []
           (component requesting)).
  - reflexivity.
  - reflexivity.
Defined.

(** X17: from any state with the map in place and no request in flight, a
    reset, two taps and a submission request the route from the first
    tapped position to the second; a submission after the reset alone, or
    after one tap, requests nothing. *)
Theorem reset_tap_tap_submit
        (toStringLarge : float -> string) (first second : Coords) (s : AppState) :
  mapRef s <> None ->
  isLoading s = false ->
  let reset := resetSelection s in
  let one := handleMapClick toStringLarge first reset in
  let two := handleMapClick toStringLarge second one in
  submitForm reset = (reset, [])
  /\ submitForm one = (one, [])
  /\ snd (handleSubmitStart reset) = [PreventDefault]
  /\ snd (handleSubmitStart one) = [PreventDefault]
  /\ submitForm two = (setIsLoading true two, [PreventDefault; Fetch first second]).
Proof.
  intros Hmap Hloading reset one two.
  unfold two, one, reset, submitForm, submitDisabled, handleSubmitStart,
    submitGuard, handleMapClick, resetSelection.
  destruct s as [sl el dirs uc ld ll cs [[[drawn|]]|] sm em]; cbn in *;
    try (now elim Hmap); subst ld; cbn;
    rewrite ?coordsText_nonempty; cbn; repeat split.
Qed.

Lemma reset_tap_tap_submit_witness :
  let reset := resetSelection (component selected) in
  let one := handleMapClick sampleToStringLarge paris reset in
  let two := handleMapClick sampleToStringLarge london one in
  submitForm reset = (reset, [])
  /\ submitForm one = (one, [])
  /\ snd (handleSubmitStart reset) = [PreventDefault]
  /\ snd (handleSubmitStart one) = [PreventDefault]
  /\ submitForm two = (setIsLoading true two, [PreventDefault; Fetch paris london]).
Proof.
  apply (reset_tap_tap_submit sampleToStringLarge paris london (component selected)).
  - discriminate.
  - reflexivity.
Defined.




(* ================================================================== *)
(** ** The shape of a printed number *)
(* ================================================================== *)

Lemma length_app_string (a b : string) :
  String.length (a ++ b) = String.length a + String.length b.
Proof.
  induction a as [|c a IH]; cbn [append String.length]; [reflexivity|now rewrite IH].
Qed.

Lemma length_substring (s : string) : forall n m,
  n + m <= String.length s -> String.length (substring n m s) = m.
Proof.
  induction s as [|c s IH]; intros n m; cbn [String.length].
  - intros H. assert (n = 0) by lia. assert (m = 0) by lia. now subst.
  - destruct n as [|n]; cbn [substring].
    + destruct m as [|m]; [reflexivity|]. intros H. cbn [String.length].
      rewrite IH; [reflexivity|lia].
    + intros H. apply IH. lia.
Qed.

Lemma allDigits_substring (s : string) : forall n m,
  allDigits s = true -> allDigits (substring n m s) = true.
Proof.
  induction s as [|c s IH]; intros n m; cbn [allDigits].
  - now destruct n, m.
  - intros H. apply andb_prop in H. destruct H as (Hc & Hs).
    destruct n as [|n]; cbn [substring].
    + destruct m as [|m]; [reflexivity|]. cbn [allDigits]. now rewrite Hc, IH.
    + now apply IH.
Qed.

Lemma allDigits_app (a b : string) :
  allDigits a = true -> allDigits b = true -> allDigits (a ++ b) = true.
Proof.
  induction a as [|c a IH]; cbn [append allDigits]; [easy|].
  intros H Hb. apply andb_prop in H. destruct H as (Hc & Ha).
  now rewrite Hc, IH.
Qed.

Lemma zeros_digits (n : nat) :
  allDigits (zeros n) = true /\ String.length (zeros n) = n.
Proof.
  induction n as [|n (IH1 & IH2)]; cbn [zeros allDigits String.length]; [easy|].
  now rewrite IH1, IH2.
Qed.

Lemma string_of_uint_digits (d : Decimal.uint) :
  allDigits (NilZero.string_of_uint d) = true
  /\ 1 <= String.length (NilZero.string_of_uint d).
Proof.
  assert (H : allDigits (NilEmpty.string_of_uint d) = true)
    by (induction d; cbn; easy).
  destruct d; cbn [NilZero.string_of_uint]; (split; [easy|cbn; lia]).
Qed.

Lemma fixedDigits_shape (n : Z) (f : nat) :
  1 <= f ->
  exists whole fraction,
    fixedDigits n f = whole ++ "." ++ fraction
    /\ 1 <= String.length whole
    /\ String.length fraction = f
    /\ allDigits whole = true
    /\ allDigits fraction = true.
Proof.
  intros Hf. unfold fixedDigits.
  destruct (string_of_uint_digits (N.to_uint (Z.to_N n))) as (Hdigits & Hlen).
  set (m0 := NilZero.string_of_uint (N.to_uint (Z.to_N n))) in *.
  set (m := if (String.length m0 <=? f)%nat
            then zeros (f + 1 - String.length m0) ++ m0 else m0).
  assert (Hm : allDigits m = true /\ f < String.length m).
  { unfold m. destruct (String.length m0 <=? f)%nat eqn:E.
    - apply Nat.leb_le in E.
      destruct (zeros_digits (f + 1 - String.length m0)) as (Hz & Hzl).
      split; [now apply allDigits_app|].
      rewrite length_app_string, Hzl. lia.
    - apply Nat.leb_gt in E. now split. }
  destruct Hm as (Hmd & Hml).
  replace (f =? 0)%nat with false by (symmetry; apply Nat.eqb_neq; lia).
  exists (substring 0 (String.length m - f) m), (substring (String.length m - f) f m).
  split; [reflexivity|].
  split; [rewrite length_substring; lia|].
  split; [rewrite length_substring; lia|].
  split; now apply allDigits_substring.
Qed.

(** X20: a finite number below 10^21 in magnitude is printed by
    [toFixed(f)], [f >= 1], as an optional minus sign, one or more digits, a
    point, and exactly [f] digits. *)
Theorem toFixed_shape
        (toStringLarge : float -> string) (x : float) (f : nat) :
  isFinite x = true ->
  (1e21 <=? abs x)%float = false ->
  1 <= f ->
  exists sign whole fraction,
    toFixed toStringLarge x f = sign ++ whole ++ "." ++ fraction
    /\ (sign = "" \/ sign = "-")
    /\ 1 <= String.length whole
    /\ String.length fraction = f
    /\ allDigits whole = true
    /\ allDigits fraction = true.
Proof.
  intros Hfinite Hlarge Hf. unfold toFixed, isFinite in *. rewrite Hlarge.
  destruct (Prim2SF x) as [s|s| |s m e]; try discriminate.
  - destruct (fixedDigits_shape 0 f Hf) as (whole & fraction & -> & H).
    exists "", whole, fraction. split; [reflexivity|]. split; [now left|exact H].
  - destruct (fixedDigits_shape (nearestScaled m e f) f Hf)
      as (whole & fraction & -> & H).
    exists (if s then "-" else ""), whole, fraction.
    split; [reflexivity|]. split; [destruct s; auto|exact H].
Qed.

Lemma toFixed_shape_witness :
  exists sign whole fraction,
    toFixed sampleToStringLarge (-0.1278)%float 6 = sign ++ whole ++ "." ++ fraction
    /\ (sign = "" \/ sign = "-")
    /\ 1 <= String.length whole
    /\ String.length fraction = 6
    /\ allDigits whole = true
    /\ allDigits fraction = true.
Proof.
  apply (toFixed_shape sampleToStringLarge (-0.1278)%float 6).
  - vm_compute. reflexivity.
  - vm_compute. reflexivity.
  - lia.
Defined.

(* ================================================================== *)
(** ** The filter, and the start-up *)
(* ================================================================== *)

(** X21: a step is included exactly when its lower-cased instruction
    matches the pattern and, besides, one of the seven keywords occurs in
    the instruction in some letter case or the distance is above 1000. *)
Theorem included_characterised (step : MapboxStep.t) :
  included step = true
  <-> (exists m, roadMatch (toLowerCase (MapboxStep.instruction step)) = Some m)
      /\ ((exists kw, In kw keywords
                      /\ occursAnyCase kw (MapboxStep.instruction step))
          \/ (1000 <? MapboxStep.distance step)%float = true).
Proof.
  unfold included.
  destruct (roadMatch (toLowerCase (MapboxStep.instruction step))) as [m|].
  - rewrite isSignificant_keywords, orb_true_iff, existsb_exists. split.
    + intros H. split; [now exists m|].
      destruct H as [(kw & Hin & H)|H]; [left|now right].
      exists kw. split; [exact Hin|]. now apply includes_occursAnyCase.
    + intros (_ & [(kw & Hin & H)|H]); [left|now right].
      exists kw. split; [exact Hin|]. now apply includes_occursAnyCase.
  - split; [discriminate|]. now intros ((m & H) & _).
Qed.

(** X22: in every run, the map exists only once a position has been found
    and the location spinner is gone; and as long as no position has been
    found the component stays as mounted in all that matters: start step, no
    request in flight, no directions, and taps change nothing. *)
Theorem no_map_before_a_position
        (toStringLarge : float -> string) (events : list Event) (w : World) :
  run toStringLarge events mounted = Some w ->
  (mapRef (component w) <> None ->
   userCoords (component w) <> None /\ loadingLocation (component w) = false)
  /\ (userCoords (component w) = None ->
      mapRef (component w) = None
      /\ currentStep (component w) = StepStart
      /\ inFlight w = 0
      /\ directions (component w) = None
      /\ forall coords,
           handleMapClick toStringLarge coords (component w) = component w).
Proof.
  intros Hrun.
  assert (Hmap : mapRef (component w) <> None ->
                 userCoords (component w) <> None
                 /\ loadingLocation (component w) = false).
  { assert (H : forall w0,
               (mapRef (component w0) <> None ->
                userCoords (component w0) <> None
                /\ loadingLocation (component w0) = false) ->
               run toStringLarge events w0 = Some w ->
               mapRef (component w) <> None ->
               userCoords (component w) <> None
               /\ loadingLocation (component w) = false).
    { clear Hrun. induction events as [|ev events IH]; intros w0 Hw0; cbn [run].
      - now intros [= <-].
      - destruct (deliver toStringLarge ev w0) as [w1|] eqn:E; [|discriminate].
        apply IH. clear IH. unfold deliver in E.
        destruct w0 as [s n]. cbn [component inFlight] in *.
        destruct ev as [coords| | |outcome|outcome|]; cbn [react] in E.
        + injection E as <-. cbn [component fst]. unfold handleMapClick.
          destruct s as [sl el dirs uc ld ll cs [map|] sm em]; [|exact Hw0].
          destruct cs; exact Hw0.
        + injection E as <-. cbn [component fst]. unfold resetSelection.
          destruct s as [sl el dirs uc ld ll cs [[[drawn|]]|] sm em]; cbn in *;
            try exact Hw0. intros _. now apply Hw0.
        + injection E as <-. cbn [component]. unfold submitForm, handleSubmitStart.
          destruct (submitDisabled s); [exact Hw0|].
          destruct (submitGuard s) as [[origin destination]|]; [|exact Hw0].
          destruct s; exact Hw0.
        + destruct n as [|n]; [discriminate|]. injection E as <-.
          cbn [component]. intros Hsome.
          pose proof (handleSubmitResume_frame toStringLarge outcome s) as Hc.
          cbn zeta in Hc. destruct Hc as (_ & _ & _ & _ & _ & Huc & Hll & Hmap).
          rewrite Huc, Hll. apply Hw0. intros Hnone. apply Hsome. now apply Hmap.
        + injection E as <-. cbn [component].
          destruct outcome; destruct s as [sl el dirs uc ld ll cs map sm em];
            cbn in *; try exact Hw0.
          * intros H. split; [discriminate|reflexivity].
          * intros H. split; [now apply Hw0|reflexivity].
        + injection E as <-. cbn [component]. unfold mapEffect.
          destruct (userCoords s) as [c|] eqn:Hc;
            [|cbn [fst]; rewrite Hc; exact Hw0].
          destruct (mapContainerRef s
                    && match mapRef s with Some _ => false | None => true end
                    && negb (loadingLocation s)) eqn:Hcond;
            [|cbn [fst]; rewrite Hc; exact Hw0].
          apply andb_prop in Hcond. destruct Hcond as (_ & Hll).
          apply negb_true_iff in Hll.
          destruct s as [sl el dirs uc ld ll cs map sm em]; cbn in *.
          intros _. split; [congruence|exact Hll]. }
    apply (H mounted); [|exact Hrun]. intros Hnone. now elim Hnone. }
  split; [exact Hmap|].
  intros Hnone.
  assert (Hno : mapRef (component w) = None).
  { destruct (mapRef (component w)) eqn:E; [|reflexivity].
    destruct Hmap as (H & _); [discriminate|]. now elim H. }
  pose proof (run_coherent _ _ _ _ (coherent_mounted toStringLarge) Hrun)
    as (_ & Hroute & Hinuse).
  split; [exact Hno|].
  split.
  { destruct (currentStep (component w)) eqn:E; [reflexivity| |];
      exfalso; apply Hinuse; [left; discriminate|exact Hno
                             |left; discriminate|exact Hno]. }
  split.
  { destruct (inFlight w) eqn:E; [reflexivity|].
    exfalso. apply Hinuse; [right; lia|exact Hno]. }
  split.
  { unfold routeDrawn, hasDirections in Hroute. rewrite Hno in Hroute.
    now destruct (directions (component w)). }
  intros coords. unfold handleMapClick. now rewrite Hno.
Qed.

Lemma no_map_before_a_position_witness :
  (mapRef (component requesting) <> None ->
   userCoords (component requesting) <> None
   /\ loadingLocation (component requesting) = false)
  /\ (userCoords (component requesting) = None ->
      mapRef (component requesting) = None
      /\ currentStep (component requesting) = StepStart
      /\ inFlight requesting = 0
      /\ directions (component requesting) = None
      /\ forall coords,
           handleMapClick sampleToStringLarge coords (component requesting)
           = component requesting).
Proof.
  apply (no_map_before_a_position sampleToStringLarge
           [Geolocation (PositionFound london); MapEffect;
            Tap london; Tap paris; SubmitForm]).
  vm_compute. reflexivity.
Defined.
